(** * usePopcorn: the hooks and list helpers of the movie search app

    A shallow embedding of
    - [useMovies]        (src/useMovies.js): the query-driven fetch lifecycle,
    - [useLocalStorage]  (src/useLocalStorage.js): state persisted as JSON,
    - [average], [handleDeleteWatched], [WatchedSummary] (src/App.js).

    JavaScript strings are modelled as [string], one [ascii] per code unit;
    React state is passed explicitly; a suspended [async] function is a
    pending entry of the world that a [Settle] event resumes. *)

From Stdlib Require Import String Ascii List ZArith QArith Qabs Qround Qpower.
From Stdlib Require Import Lia Lqa Bool.
From Stdlib Require Import DecimalString DecimalN DecimalFacts.
From stdpp Require Import gmap strings list fin_maps.

Set Warnings "-register-all".
Local Open Scope string_scope.

(** * useMovies *)

Module UseMovies.

(** A search result as the provider returns it. *)
Record Movie := mkMovie {
  imdbID : string;
  Title : string;
  Year : string;
  Poster : string
}.

(** The three [useState] cells of the hook.  [error] starts as [null]
    ([None]) and holds a string afterwards. *)
Record HookState := mkHook {
  movies : list Movie;
  isLoading : bool;
  error : option string
}.

Definition initial : HookState :=
  {| movies := []; isLoading := false; error := None |}.

Definition setMovies (v : list Movie) (st : HookState) : HookState :=
  {| movies := v; isLoading := isLoading st; error := error st |}.

Definition setIsLoading (v : bool) (st : HookState) : HookState :=
  {| movies := movies st; isLoading := v; error := error st |}.

Definition setError (v : string) (st : HookState) : HookState :=
  {| movies := movies st; isLoading := isLoading st; error := Some v |}.

(** A thrown value: only [name] and [message] are read by the hook. *)
Record JsError := mkError { name : string; message : string }.

(** [new Error(msg)] *)
Definition new_Error (msg : string) : JsError :=
  {| name := "Error"; message := msg |}.

(** The [DOMException] a fetch or a body read is rejected with once its
    signal is aborted. *)
Definition AbortError : JsError :=
  {| name := "AbortError"; message := "The user aborted a request." |}.

(** What the transport answers.  [data.Response] and [data.Search] are the
    two fields of the parsed body the hook looks at. *)
Record OmdbData := mkData { Response : string; Search : list Movie }.

Inductive JsonOutcome :=
| JsonRejects (e : JsError)
| JsonResolves (data : OmdbData).

Record HttpResponse := mkResponse { ok : bool; json : JsonOutcome }.

Inductive FetchOutcome :=
| FetchRejects (e : JsError)
| FetchResolves (response : HttpResponse).

(** The [try] block of [fetchMovies] after its two synchronous setter
    calls: either something is thrown, or control reaches
    [setMovies(data.Search)] with the items to store. *)
Definition fetchMovies_try (o : FetchOutcome) : JsError + list Movie :=
  match o with
  | FetchRejects e => inl e
  | FetchResolves response =>
      if negb (ok response)
      then inl (new_Error "Something went wrong with fetching movies")
      else match json response with
           | JsonRejects e => inl e
           | JsonResolves data =>
               if String.eqb (Response data) "False"
               then inl (new_Error "Movie not found")
               else inr (Search data)
           end
  end.

(** [fetchMovies] up to its first [await]. *)
Definition fetchMovies_start (st : HookState) : HookState :=
  setError "" (setIsLoading true st).

(** [fetchMovies] from the settled lookup to its end: the rest of [try],
    then [catch], then [finally].  It runs on the state as it is when the
    lookup settles. *)
Definition fetchMovies_resume (o : FetchOutcome) (st : HookState) : HookState :=
  let st1 :=
    match fetchMovies_try o with
    | inr items => setMovies items st
    | inl e =>
        if negb (String.eqb (name e) "AbortError")
        then setError (message e) st
        else st
    end in
  setIsLoading false st1.

(** ** The hook inside the event loop *)

(** [pending] maps the controller of every [fetchMovies] call that is
    suspended at an [await] to the query it was issued for; [aborted] are
    the controllers whose [abort()] was called; [cleanup] is the cleanup
    function the last effect run returned (it aborts that controller);
    [next] numbers the controllers.  [hook] holds the values the hook has
    passed to its setters, in the order of the calls, also for the calls it
    makes after the teardown. *)
Record World := mkWorld {
  hook : HookState;
  pending : gmap nat string;
  aborted : gset nat;
  cleanup : option nat;
  mounted : bool;
  next : nat
}.

Definition init : World :=
  {| hook := initial; pending := ∅; aborted := ∅; cleanup := None;
     mounted := true; next := 0 |}.

(** React runs the cleanup of the previous effect run, if it returned one:
    [controller.abort()]. *)
Definition run_cleanup (w : World) : World :=
  match cleanup w with
  | Some c =>
      {| hook := hook w; pending := pending w; aborted := {[c]} ∪ aborted w;
         cleanup := None; mounted := mounted w; next := next w |}
  | None => w
  end.

(** The effect body for the query [q].  (The optional [callback] acts on
    the caller's state only and is left out.) *)
Definition useMovies_effect (q : string) (w : World) : World :=
  let controller := next w in
  if (String.length q <? 3)%nat then
    {| hook := setError "" (setMovies [] (hook w));
       pending := pending w; aborted := aborted w;
       cleanup := None; mounted := mounted w; next := S controller |}
  else
    {| hook := fetchMovies_start (hook w);
       pending := <[controller := q]> (pending w); aborted := aborted w;
       cleanup := Some controller; mounted := mounted w;
       next := S controller |}.

Inductive Event :=
| QueryChange (q : string)
| Unmount
| Settle (c : nat) (o : FetchOutcome).

Definition step (w : World) (ev : Event) : option World :=
  match ev with
  | QueryChange q =>
      if mounted w then Some (useMovies_effect q (run_cleanup w)) else None
  | Unmount =>
      if mounted w then
        let w1 := run_cleanup w in
        Some {| hook := hook w1; pending := pending w1; aborted := aborted w1;
                cleanup := None; mounted := false; next := next w1 |}
      else None
  | Settle c o =>
      match pending w !! c with
      | Some _ =>
          Some {| hook := fetchMovies_resume o (hook w);
                  pending := delete c (pending w); aborted := aborted w;
                  cleanup := cleanup w; mounted := mounted w; next := next w |}
      | None => None
      end
  end.

Fixpoint run (w : World) (tr : list Event) : option World :=
  match tr with
  | [] => Some w
  | ev :: tr' =>
      match step w ev with
      | Some w' => run w' tr'
      | None => None
      end
  end.

Definition reachable (w : World) : Prop := ∃ tr, run init tr = Some w.

(** The lookup ended in an [AbortError]. *)
Definition cancelled (o : FetchOutcome) : bool :=
  match fetchMovies_try o with
  | inl e => String.eqb (name e) "AbortError"
  | inr _ => false
  end.

(** A transport honours cancellation when a lookup whose controller was
    aborted settles as cancelled. *)
Definition event_honours_abort (w : World) (ev : Event) : bool :=
  match ev with
  | Settle c o => if decide (c ∈ aborted w) then cancelled o else true
  | _ => true
  end.

Fixpoint honours_abort (w : World) (tr : list Event) : bool :=
  match tr with
  | [] => true
  | ev :: tr' =>
      event_honours_abort w ev &&
      match step w ev with
      | Some w' => honours_abort w' tr'
      | None => true
      end
  end.

Definition is_settle (ev : Event) : bool :=
  match ev with Settle _ _ => true | _ => false end.

(** What [App] puts in the left box for a hook state (src/App.js). *)
Inductive Element :=
| Loader
| MovieList (items : list Movie)
| ErrorMessage (msg : string).

Definition truthy (s : option string) : bool :=
  match s with
  | Some (String _ _) => true
  | _ => false
  end.

Definition render_results (st : HookState) : list Element :=
  (if isLoading st then [Loader] else []) ++
  (if negb (isLoading st) && negb (truthy (error st))
   then [MovieList (movies st)] else []) ++
  (match error st with
   | Some (String a m) => [ErrorMessage (String a m)]
   | _ => []
   end).

(** ** Invariants and outcomes used in the statements *)

(** Every suspended [fetchMovies] call either belongs to the last effect
    run or has had its controller aborted. *)
Definition superseded_aborted (w : World) : Prop :=
  ∀ c q, pending w !! c = Some q → cleanup w = Some c ∨ c ∈ aborted w.

(** The spinner is only on while some call is suspended. *)
Definition loading_pending (w : World) : Prop :=
  isLoading (hook w) = true → pending w ≠ ∅.

(** Along a run of [Settle] events: [quiet] when the call of the last effect
    run has not settled, [live_settled] when it has. *)
Definition quiet (w w' : World) (post : list Event) : Prop :=
  (∀ c, cleanup w = Some c → pending w' !! c = pending w !! c) ∧
  movies (hook w') = movies (hook w) ∧
  error (hook w') = error (hook w) ∧
  (post = [] → w' = w) ∧
  (post ≠ [] → isLoading (hook w') = false).

Definition live_settled (w w' : World) (post : list Event) : Prop :=
  ∃ c o, cleanup w = Some c ∧ is_Some (pending w !! c) ∧
         In (Settle c o) post ∧ pending w' !! c = None ∧
         hook w' = fetchMovies_resume o (hook w).

(** The three ways a lookup fails without having been cancelled, with the
    message the [catch] block receives. *)
Inductive LookupFailure : FetchOutcome → string → Prop :=
| NetworkFailure e :
    String.eqb (name e) "AbortError" = false →
    LookupFailure (FetchRejects e) (message e)
| HttpFailure body :
    LookupFailure (FetchResolves {| ok := false; json := body |})
                  "Something went wrong with fetching movies"
| ProviderNotFound items :
    LookupFailure
      (FetchResolves {| ok := true;
                        json := JsonResolves {| Response := "False"; Search := items |} |})
      "Movie not found".

(** Sample data *)
Definition alien : Movie :=
  {| imdbID := "tt0078748"; Title := "Alien"; Year := "1979"; Poster := "N/A" |}.
Definition ali : Movie :=
  {| imdbID := "tt0248667"; Title := "Ali"; Year := "2001"; Poster := "N/A" |}.

Definition found (items : list Movie) : FetchOutcome :=
  FetchResolves {| ok := true;
                   json := JsonResolves {| Response := "True"; Search := items |} |}.
Definition not_found : FetchOutcome :=
  FetchResolves {| ok := true;
                   json := JsonResolves {| Response := "False"; Search := [] |} |}.
Definition http_failure : FetchOutcome :=
  FetchResolves {| ok := false; json := JsonRejects (new_Error "unread") |}.
Definition aborted_fetch : FetchOutcome := FetchRejects AbortError.

End UseMovies.

(** * JSON.stringify and JSON.parse

    The two built-ins [useLocalStorage] calls, on the JSON values the hook
    can hold: a number is the decimal literal written for it (literals with
    an exponent, [NaN] and the infinities are outside the model), an object
    is the list of its members in the order [JSON.stringify] visits them,
    and the texts are the compact ones [JSON.stringify] emits (no
    insignificant white space). *)

Module Json.

(** A finite number as the decimal literal [Number::toString] writes for
    it: the sign, the integer part and the digits after the point ([Nil]
    when there are none). *)
Record number := mkNumber {
  negative : bool;
  whole : N;
  fraction : Decimal.uint
}.

Definition integer (z : Z) : number :=
  {| negative := (z <? 0)%Z; whole := Z.abs_N z; fraction := Decimal.Nil |}.

Inductive value :=
| JNull
| JBool (b : bool)
| JNumber (n : number)
| JString (s : string)
| JArray (items : list value)
| JObject (members : list (string * value)).

(** The two characters of a string literal that need care. *)
Definition dquote : ascii := "034"%char.
Definition backslash : ascii := "092"%char.

(** Lower-case hexadecimal, as in the [\u00xx] escapes. *)
Definition hex_digit (n : N) : ascii :=
  if (n <? 10)%N then ascii_of_N (48 + n) else ascii_of_N (87 + n).

Definition hex_value (c : ascii) : option N :=
  let n := N_of_ascii c in
  if (48 <=? n)%N && (n <=? 57)%N then Some (n - 48)%N
  else if (97 <=? n)%N && (n <=? 102)%N then Some (n - 87)%N
  else if (65 <=? n)%N && (n <=? 70)%N then Some (n - 55)%N
  else None.

(** QuoteJSONString: the quote, the backslash and the control characters
    are escaped, every other code unit is copied. *)
Definition escape_char (c : ascii) : string :=
  let n := N_of_ascii c in
  if (n =? 34)%N then String backslash (String dquote "")
  else if (n =? 92)%N then String backslash (String backslash "")
  else if (n =? 8)%N then String backslash "b"
  else if (n =? 9)%N then String backslash "t"
  else if (n =? 10)%N then String backslash "n"
  else if (n =? 12)%N then String backslash "f"
  else if (n =? 13)%N then String backslash "r"
  else if (n <? 32)%N then
    String backslash
      (String "u" (String "0" (String "0"
         (String (hex_digit (n / 16)) (String (hex_digit (n mod 16)) "")))))
  else String c "".

Fixpoint escape (s : string) : string :=
  match s with
  | EmptyString => ""
  | String c s' => escape_char c ++ escape s'
  end.

Definition quote (s : string) : string :=
  String dquote (escape s ++ String dquote "").

Definition fraction_text (f : Decimal.uint) : string :=
  match f with
  | Decimal.Nil => ""
  | _ => String "." (NilEmpty.string_of_uint f)
  end.

Definition number_text (n : number) : string :=
  (if negative n then "-" else "") ++
  NilEmpty.string_of_uint (N.to_uint (whole n)) ++
  fraction_text (fraction n).

Fixpoint join (sep : string) (parts : list string) : string :=
  match parts with
  | [] => ""
  | [p] => p
  | p :: ps => p ++ sep ++ join sep ps
  end.

(** [JSON.stringify(v)] without indentation. *)
Fixpoint JSON_stringify (v : value) : string :=
  match v with
  | JNull => "null"
  | JBool true => "true"
  | JBool false => "false"
  | JNumber n => number_text n
  | JString s => quote s
  | JArray items => "[" ++ join "," (map JSON_stringify items) ++ "]"
  | JObject members =>
      "{" ++ join "," (map (fun kv => quote (fst kv) ++ ":" ++ JSON_stringify (snd kv))
                           members) ++ "}"
  end.

(** The one-letter escapes [JSON.parse] accepts after a backslash. *)
Definition simple_escape (e : ascii) : option ascii :=
  let n := N_of_ascii e in
  if (n =? 34)%N then Some dquote
  else if (n =? 92)%N then Some backslash
  else if (n =? 47)%N then Some "/"%char
  else if (n =? 98)%N then Some "008"%char
  else if (n =? 116)%N then Some "009"%char
  else if (n =? 110)%N then Some "010"%char
  else if (n =? 102)%N then Some "012"%char
  else if (n =? 114)%N then Some "013"%char
  else None.

(** [\uXXXX], for the code units a [string] can hold. *)
Definition hex4 (a b c d : ascii) : option ascii :=
  match hex_value a, hex_value b, hex_value c, hex_value d with
  | Some x3, Some x2, Some x1, Some x0 =>
      let n := (((x3 * 16 + x2) * 16 + x1) * 16 + x0)%N in
      if (n <? 256)%N then Some (ascii_of_N n) else None
  | _, _, _, _ => None
  end.

Definition cons_char (c : ascii) (r : option (string * string)) : option (string * string) :=
  match r with
  | Some (s, rest) => Some (String c s, rest)
  | None => None
  end.

(** The body of a string literal, after its opening quote, up to and
    including the closing quote. *)
Fixpoint read_string (s : string) : option (string * string) :=
  match s with
  | EmptyString => None
  | String c s1 =>
      if Ascii.eqb c dquote then Some ("", s1)
      else if Ascii.eqb c backslash then
        match s1 with
        | EmptyString => None
        | String e s2 =>
            match simple_escape e with
            | Some ch => cons_char ch (read_string s2)
            | None =>
                if Ascii.eqb e "u" then
                  match s2 with
                  | String h3 (String h2 (String h1 (String h0 s3))) =>
                      match hex4 h3 h2 h1 h0 with
                      | Some ch => cons_char ch (read_string s3)
                      | None => None
                      end
                  | _ => None
                  end
                else None
            end
        end
      else if (N_of_ascii c <? 32)%N then None
      else cons_char c (read_string s1)
  end.

Definition digit_of (c : ascii) : option (Decimal.uint -> Decimal.uint) :=
  let n := N_of_ascii c in
  if (n =? 48)%N then Some Decimal.D0
  else if (n =? 49)%N then Some Decimal.D1
  else if (n =? 50)%N then Some Decimal.D2
  else if (n =? 51)%N then Some Decimal.D3
  else if (n =? 52)%N then Some Decimal.D4
  else if (n =? 53)%N then Some Decimal.D5
  else if (n =? 54)%N then Some Decimal.D6
  else if (n =? 55)%N then Some Decimal.D7
  else if (n =? 56)%N then Some Decimal.D8
  else if (n =? 57)%N then Some Decimal.D9
  else None.

(** The longest run of decimal digits at the start of the text. *)
Fixpoint read_digits (s : string) : Decimal.uint * string :=
  match s with
  | EmptyString => (Decimal.Nil, "")
  | String c s' =>
      match digit_of c with
      | Some d => let (u, rest) := read_digits s' in (d u, rest)
      | None => (Decimal.Nil, s)
      end
  end.

(** A JSON integer part: at least one digit, no leading zero. *)
Definition read_natural (s : string) : option (N * string) :=
  match read_digits s with
  | (Decimal.Nil, _) => None
  | (Decimal.D0 Decimal.Nil, rest) => Some (0%N, rest)
  | (Decimal.D0 _, _) => None
  | (u, rest) => Some (N.of_uint u, rest)
  end.

(** The optional fraction: a point and at least one digit. *)
Definition read_fraction (s : string) : option (Decimal.uint * string) :=
  match s with
  | String c s' =>
      if Ascii.eqb c "." then
        match read_digits s' with
        | (Decimal.Nil, _) => None
        | (f, rest) => Some (f, rest)
        end
      else Some (Decimal.Nil, s)
  | EmptyString => Some (Decimal.Nil, "")
  end.

Definition read_unsigned (neg : bool) (s : string) : option (number * string) :=
  match read_natural s with
  | Some (w, s1) =>
      match read_fraction s1 with
      | Some (f, rest) =>
          Some ({| negative := neg; whole := w; fraction := f |}, rest)
      | None => None
      end
  | None => None
  end.

Definition read_number (s : string) : option (number * string) :=
  match s with
  | String c s' =>
      if Ascii.eqb c "-" then read_unsigned true s' else read_unsigned false s
  | EmptyString => None
  end.

Fixpoint strip_prefix (p s : string) : option string :=
  match p with
  | EmptyString => Some s
  | String a p' =>
      match s with
      | String b s' => if Ascii.eqb a b then strip_prefix p' s' else None
      | EmptyString => None
      end
  end.

Definition is_number_start (c : ascii) : bool :=
  match digit_of c with Some _ => true | None => Ascii.eqb c "-" end.

(** Recursive descent; [fuel] bounds the nesting and the number of items. *)
Fixpoint parse_value (fuel : nat) (s : string) : option (value * string) :=
  match fuel with
  | O => None
  | S fuel' =>
      match s with
      | EmptyString => None
      | String c r =>
          if is_number_start c then
            match read_number s with
            | Some (n, rest) => Some (JNumber n, rest)
            | None => None
            end
          else if Ascii.eqb c dquote then
            match read_string r with
            | Some (str, rest) => Some (JString str, rest)
            | None => None
            end
          else if Ascii.eqb c "[" then
            match strip_prefix "]" r with
            | Some rest => Some (JArray [], rest)
            | None =>
                match parse_elements fuel' r with
                | Some (items, rest) => Some (JArray items, rest)
                | None => None
                end
            end
          else if Ascii.eqb c "{" then
            match strip_prefix "}" r with
            | Some rest => Some (JObject [], rest)
            | None =>
                match parse_members fuel' r with
                | Some (members, rest) => Some (JObject members, rest)
                | None => None
                end
            end
          else
            match strip_prefix "null" s with
            | Some rest => Some (JNull, rest)
            | None =>
                match strip_prefix "true" s with
                | Some rest => Some (JBool true, rest)
                | None =>
                    match strip_prefix "false" s with
                    | Some rest => Some (JBool false, rest)
                    | None => None
                    end
                end
            end
      end
  end
with parse_elements (fuel : nat) (s : string) : option (list value * string) :=
  match fuel with
  | O => None
  | S fuel' =>
      match parse_value fuel' s with
      | Some (v, String c rest) =>
          if Ascii.eqb c "," then
            match parse_elements fuel' rest with
            | Some (vs, rest') => Some (v :: vs, rest')
            | None => None
            end
          else if Ascii.eqb c "]" then Some ([v], rest)
          else None
      | _ => None
      end
  end
with parse_members (fuel : nat) (s : string) : option (list (string * value) * string) :=
  match fuel with
  | O => None
  | S fuel' =>
      match s with
      | String q s1 =>
          if Ascii.eqb q dquote then
            match read_string s1 with
            | Some (k, String colon s2) =>
                if Ascii.eqb colon ":" then
                  match parse_value fuel' s2 with
                  | Some (v, String c rest) =>
                      if Ascii.eqb c "," then
                        match parse_members fuel' rest with
                        | Some (ms, rest') => Some ((k, v) :: ms, rest')
                        | None => None
                        end
                      else if Ascii.eqb c "}" then Some ([(k, v)], rest)
                      else None
                  | _ => None
                  end
                else None
            | _ => None
            end
          else None
      | EmptyString => None
      end
  end.

(** [JSON.parse(text)]; [None] stands for the [SyntaxError] it throws. *)
Definition JSON_parse (text : string) : option value :=
  match parse_value (S (String.length text)) text with
  | Some (v, EmptyString) => Some v
  | _ => None
  end.

(** A text that does not continue a run of digits. *)
Definition digits_end (rest : string) : Prop :=
  match rest with
  | EmptyString => True
  | String c _ => digit_of c = None
  end.

(** A text that does not continue a number: it starts with neither a digit
    nor a point. *)
Definition delimited (rest : string) : bool :=
  match rest with
  | EmptyString => true
  | String c _ =>
      match digit_of c with
      | Some _ => false
      | None => negb (Ascii.eqb c ".")
      end
  end.

(** Fuel that suffices to read a value back. *)
Fixpoint size (v : value) : nat :=
  match v with
  | JArray items => S (fold_right (fun v n => S (size v + n)) 0 items)
  | JObject members => S (fold_right (fun kv n => S (size (snd kv) + n)) 0 members)
  | _ => 1
  end.

(** [v] is read back from its text, whatever delimited text follows. *)
Definition parses (v : value) : Prop :=
  ∀ fuel rest, (size v <= fuel)%nat → delimited rest = true →
    parse_value fuel (JSON_stringify v ++ rest) = Some (v, rest).

End Json.

(** * useLocalStorage *)

Module UseLocalStorage.
Import Json.

(** [localStorage]: string keys to string items; [getItem] of a missing key
    is [null] ([None]). *)
Abbreviation Storage := (gmap string string).

(** The spread [[...value]]: an array gives its items, a string its code
    units; the other JSON values are not iterable ([None]: [TypeError]). *)
Definition spread (v : value) : option (list value) :=
  match v with
  | JArray items => Some items
  | JString s => Some (map (fun c => JString (String c "")) (list_ascii_of_string s))
  | _ => None
  end.

(** The function passed to [useState]: the stored item when it is a
    non-empty string, parsed; [initialState] otherwise.  [None] stands for
    the exception [JSON.parse] throws. *)
Definition initialValue (initialState : value) (key : string) (ls : Storage)
  : option value :=
  match ls !! key with
  | Some (String c s) => JSON_parse (String c s)
  | _ => Some initialState
  end.

(** The effect: [localStorage.setItem(key, JSON.stringify([...value]))]. *)
Definition persist (key : string) (v : value) (ls : Storage) : option Storage :=
  match spread v with
  | Some items => Some (<[key := JSON_stringify (JArray items)]> ls)
  | None => None
  end.

(** First render: the lazy initial state, then the effect. *)
Definition mount (initialState : value) (key : string) (ls : Storage)
  : option (value * Storage) :=
  match initialValue initialState key ls with
  | Some v =>
      match persist key v ls with
      | Some ls' => Some (v, ls')
      | None => None
      end
  | None => None
  end.

(** [setValue(v)]: the new state, then the effect since [value] changed. *)
Definition setValue (key : string) (v : value) (ls : Storage)
  : option (value * Storage) :=
  match persist key v ls with
  | Some ls' => Some (v, ls')
  | None => None
  end.

End UseLocalStorage.

(** * App: the watched list and its statistics *)

Module App.

(** JavaScript numbers are the values of IEEE 754 binary64.  [Num q] is
    the finite value [q]; the sign of a zero is not tracked.  [+] and [/]
    give the exact result rounded to the nearest binary64 value, the one
    with an even last digit when two are equally near ([round64]). *)
Inductive number :=
| Num (q : Q)
| Infinity (negative : bool)
| NaN.

Definition pow2 (e : Z) : Q := Qpower 2 e.

(** The integer nearest to [y], the even one of the two when [y] is half
    way between them. *)
Definition nearest_even (y : Q) : Z :=
  let f := Qfloor y in
  match Qcompare (y - inject_Z f) (1 # 2) with
  | Lt => f
  | Gt => (f + 1)%Z
  | Eq => if Z.even f then f else (f + 1)%Z
  end.

(** The exponent [e] of the last binary digit of the binary64 values next
    to [x]: 53 digits, so [2^52 <= |x| / 2^e < 2^53], and never below
    -1074, the exponent of the subnormal numbers. *)
Definition ulp_exponent (x : Q) : Z :=
  let e0 := (Z.log2 (Z.abs (Qnum x)) - Z.log2 (Zpos (Qden x)) - 53)%Z in
  let e := if Qle_bool (pow2 53) (Qabs x * pow2 (- e0)) then (e0 + 1)%Z else e0 in
  Z.max e (-1074).

(** Rounding to nearest, ties to even; what reaches [2^1024] overflows. *)
Definition round64 (x : Q) : number :=
  let e := ulp_exponent x in
  let r := (inject_Z (nearest_even (x * pow2 (- e))) * pow2 e)%Q in
  if Qle_bool (pow2 1024) (Qabs r)
  then Infinity (negb (Qle_bool 0 x))
  else Num (Qred r).

Definition add (a b : number) : number :=
  match a, b with
  | Num x, Num y => round64 (x + y)
  | NaN, _ | _, NaN => NaN
  | Infinity s, Infinity t => if Bool.eqb s t then Infinity s else NaN
  | Infinity s, Num _ | Num _, Infinity s => Infinity s
  end.

(** A zero divisor is taken as [+0], which is what a length is. *)
Definition div (a b : number) : number :=
  match a, b with
  | Num x, Num y =>
      if Qeq_bool y 0
      then (if Qeq_bool x 0 then NaN else Infinity (negb (Qle_bool 0 x)))
      else round64 (x / y)
  | NaN, _ | _, NaN => NaN
  | Infinity _, Infinity _ => NaN
  | Infinity s, Num y => Infinity (xorb s (negb (Qle_bool 0 y)))
  | Num _, Infinity _ => Num 0
  end.

Definition of_nat (n : nat) : number := Num (inject_Z (Z.of_nat n)).

(** [arr.reduce(callback, initialValue)]: the callback gets the
    accumulator, the current item, its index and the array. *)
Fixpoint reduce_from {A B : Type} (callback : B -> A -> nat -> list A -> B)
    (arr : list A) (i : nat) (rest : list A) (acc : B) : B :=
  match rest with
  | [] => acc
  | cur :: rest' => reduce_from callback arr (S i) rest' (callback acc cur i arr)
  end.

Definition reduce {A B : Type} (callback : B -> A -> nat -> list A -> B)
    (initialValue : B) (arr : list A) : B :=
  reduce_from callback arr 0 arr initialValue.

Definition average (arr : list number) : number :=
  reduce (fun acc cur i arr => add acc (div cur (of_nat (length arr)))) (Num 0) arr.

(** An entry of the watched list, as [handleAdd] builds it.  [runtime] is
    the number its text stands for under [/]. *)
Record WatchedMovie := mkWatched {
  imdbID : string;
  title : string;
  year : string;
  poster : string;
  imdbRating : number;
  userRating : number;
  runtime : number;
  countRatingDecisions : nat
}.

(** The figures [WatchedSummary] computes before rendering. *)
Record Summary := mkSummary {
  count : nat;
  avgImdbRating : number;
  avgUserRating : number;
  avgRuntime : number
}.

Definition WatchedSummary (watched : list WatchedMovie) : Summary :=
  {| count := length watched;
     avgImdbRating := average (map imdbRating watched);
     avgUserRating := average (map userRating watched);
     avgRuntime := average (map runtime watched) |}.

(** [setWatched((watched) => watched.filter((movie) => movie.imdbID !== id))] *)
Definition handleDeleteWatched (id : string) (watched : list WatchedMovie)
  : list WatchedMovie :=
  List.filter (fun movie => negb (String.eqb (imdbID movie) id)) watched.

(** ** What the averages are compared with

    The sum of an array divided by its length, in exact arithmetic and as
    JavaScript computes it; the sum of the magnitudes; and the two
    constants of binary64 rounding: half the distance between 1 and the
    next number, and half the smallest positive number. *)
Definition total (xs : list Q) : Q := fold_right Qplus 0%Q xs.

Definition mean (xs : list Q) : Q := (total xs / inject_Z (Z.of_nat (length xs)))%Q.

Definition magnitude (xs : list Q) : Q := total (map Qabs xs).

Definition sum (arr : list number) : number :=
  reduce (fun acc cur i arr => add acc cur) (Num 0) arr.

Definition unit_roundoff : Q := pow2 (-53).

Definition half_least : Q := pow2 (-1075).

End App.

(** * useKey *)

Module UseKey.
Local Open Scope nat_scope.
Local Open Scope list_scope.

(** [String.prototype.toLowerCase] on one-unit characters: the letters A-Z
    and the Latin-1 capitals (all of 192-222 but the multiplication sign)
    move up by 32, every other code unit stays. *)
Definition lower_char (c : ascii) : ascii :=
  let n := N_of_ascii c in
  if ((65 <=? n)%N && (n <=? 90)%N)
     || ((192 <=? n)%N && (n <=? 222)%N && negb (n =? 215)%N)
  then ascii_of_N (n + 32)
  else c.

Fixpoint toLowerCase (s : string) : string :=
  match s with
  | EmptyString => ""
  | String c s' => String (lower_char c) (toLowerCase s')
  end.

Section Listeners.
Context {Action : Type} `{EqDecision Action}.

(** The function [callback] an effect run creates: it closes over [key]
    and [action]. *)
Record Callback := mkCallback { cb_key : string; cb_action : Action }.

(** The keydown listeners of [document], in the order they were added;
    each function object has its own identity. *)
Record Document := mkDocument {
  listeners : list (nat * Callback);
  fresh : nat
}.

Definition addEventListener (cb : Callback) (d : Document) : nat * Document :=
  (fresh d, {| listeners := listeners d ++ [(fresh d, cb)]; fresh := S (fresh d) |}).

Definition removeEventListener (id : nat) (d : Document) : Document :=
  {| listeners := List.filter (fun l => negb (Nat.eqb (fst l) id)) (listeners d);
     fresh := fresh d |}.

(** [callback(e)]: the actions it runs for a key with code [code]. *)
Definition callback (cb : Callback) (code : string) : list Action :=
  if String.eqb (toLowerCase code) (toLowerCase (cb_key cb))
  then [cb_action cb]
  else [].

(** A keydown event: every listener is called, in order. *)
Definition keydown (code : string) (d : Document) : list Action :=
  flat_map (fun l => callback (snd l) code) (listeners d).

(** One use of the hook: the dependencies of its last effect run and the
    listener that run added (what its cleanup removes). *)
Record Hook := mkHook {
  deps : option (string * Action);
  cleanup : option nat
}.

Definition unused : Hook := {| deps := None; cleanup := None |}.

Definition run_cleanup (h : Hook) (d : Document) : Document :=
  match cleanup h with
  | Some id => removeEventListener id d
  | None => d
  end.

(** A render with [useKey(key, action)]: the effect runs on the first
    render and when [key] or [action] changed, after the cleanup of the
    previous run. *)
Definition useKey (key : string) (action : Action) (h : Hook) (d : Document)
  : Hook * Document :=
  if decide (deps h = Some (key, action)) then (h, d)
  else
    let (id, d') := addEventListener {| cb_key := key; cb_action := action |}
                                     (run_cleanup h d) in
    ({| deps := Some (key, action); cleanup := Some id |}, d').

Definition unmount (h : Hook) (d : Document) : Hook * Document :=
  (unused, run_cleanup h d).

(** Successive renders of one component. *)
Fixpoint renders (rs : list (string * Action)) (h : Hook) (d : Document)
  : Hook * Document :=
  match rs with
  | [] => (h, d)
  | (key, action) :: rs' =>
      let (h', d') := useKey key action h d in renders rs' h' d'
  end.

(** Listener identities are distinct and below [fresh]. *)
Definition well_formed (d : Document) : Prop :=
  NoDup (map fst (listeners d)) ∧ Forall (fun l => fst l < fresh d) (listeners d).

(** The listener the hook has on the document. *)
Definition registered (h : Hook) : list (nat * Callback) :=
  match deps h, cleanup h with
  | Some (key, action), Some id => [(id, {| cb_key := key; cb_action := action |})]
  | _, _ => []
  end.

(** The effect has run exactly when a cleanup is held. *)
Definition consistent (h : Hook) : Prop :=
  is_Some (deps h) ↔ is_Some (cleanup h).

End Listeners.

Arguments Callback : clear implicits.
Arguments Document : clear implicits.
Arguments Hook : clear implicits.

End UseKey.

(** * StarRating *)

Module StarRating.
Local Open Scope nat_scope.
Local Open Scope list_scope.

(** The props that decide behaviour ([color], [size] and [className] only
    style the output); [onSetMovieRating] is optional. *)
Record Props := mkProps {
  maxRating : nat;
  messages : list string;
  defaultRating : nat;
  onSetMovieRating : bool
}.

Record State := mkState {
  rating : nat;
  tempRating : nat
}.

Definition initial (p : Props) : State :=
  {| rating := defaultRating p; tempRating := 0 |}.

(** [handleRating(rating)]: the new state and the calls made to the
    parent's callback. *)
Definition handleRating (p : Props) (r : nat) (st : State) : State * list nat :=
  ({| rating := r; tempRating := tempRating st |},
   if onSetMovieRating p then [r] else []).

(** What the stars and the text follow: [tempRating] while it is truthy,
    [rating] otherwise. *)
Definition shown (st : State) : nat :=
  if Nat.eqb (tempRating st) 0 then rating st else tempRating st.

(** [isFull] of the star with index [i]. *)
Definition isFull (st : State) (i : nat) : bool :=
  if Nat.eqb (tempRating st) 0 then i + 1 <=? rating st
  else i + 1 <=? tempRating st.

(** [Array.from({ length: maxRating }, (_, i) => ...)] *)
Definition stars (p : Props) (st : State) : list bool :=
  map (isFull st) (seq 0 (maxRating p)).

(** The paragraph next to the stars. *)
Inductive Text :=
| Message (m : option string)
| Number (n : nat)
| Nothing.

(** [messages[i - 1]]: index -1 is [undefined]. *)
Definition message_at (ms : list string) (i : nat) : option string :=
  match i with
  | O => None
  | S j => nth_error ms j
  end.

Definition text (p : Props) (st : State) : Text :=
  if Nat.eqb (length (messages p)) (maxRating p) then
    Message (message_at (messages p)
               (if Nat.eqb (tempRating st) 0 then rating st else tempRating st))
  else if negb (Nat.eqb (tempRating st) 0) then Number (tempRating st)
  else if negb (Nat.eqb (rating st) 0) then Number (rating st)
  else Nothing.

(** What the user does to the star with index [i]. *)
Inductive Event :=
| Click (i : nat)
| HoverIn (i : nat)
| HoverOut (i : nat).

(** Only the [maxRating] rendered stars receive events. *)
Definition step (p : Props) (st : State) (ev : Event) : option (State * list nat) :=
  match ev with
  | Click i =>
      if i <? maxRating p then Some (handleRating p (i + 1) st) else None
  | HoverIn i =>
      if i <? maxRating p
      then Some ({| rating := rating st; tempRating := i + 1 |}, [])
      else None
  | HoverOut i =>
      if i <? maxRating p
      then Some ({| rating := rating st; tempRating := 0 |}, [])
      else None
  end.

(** A run: the final state and every call made to the parent, in order. *)
Fixpoint run (p : Props) (st : State) (evs : list Event) : option (State * list nat) :=
  match evs with
  | [] => Some (st, [])
  | ev :: evs' =>
      match step p st ev with
      | Some (st', calls) =>
          match run p st' evs' with
          | Some (st'', calls') => Some (st'', calls ++ calls')
          | None => None
          end
      | None => None
      end
  end.

(** The ratings of the stars clicked, in order. *)
Definition clicked (evs : list Event) : list nat :=
  flat_map (fun ev => match ev with Click i => [i + 1] | _ => [] end) evs.

End StarRating.

(** * MovieDetails and the handlers of App *)

Module MovieDetails.
Import App.
Local Open Scope nat_scope.
Local Open Scope list_scope.

(** The fields of the fetched movie that [handleAdd] reads. *)
Record Details := mkDetails {
  Title : string;
  Year : string;
  Poster : string;
  Runtime : string;
  imdbRatingText : string
}.

(** [watched.map((movie) => movie.imdbID).includes(selectedId)] *)
Definition isWatched (selectedId : string) (watched : list WatchedMovie) : bool :=
  existsb (String.eqb selectedId) (map imdbID watched).

(** [watched.find((movie) => movie.imdbID === selectedId)?.userRating] *)
Definition watchedUserRating (selectedId : string) (watched : list WatchedMovie)
  : option number :=
  match List.find (fun movie => String.eqb (imdbID movie) selectedId) watched with
  | Some movie => Some (userRating movie)
  | None => None
  end.

(** [text.split(" ").at(0)]: the text before the first space. *)
Fixpoint first_word (s : string) : string :=
  match s with
  | EmptyString => ""
  | String c s' => if Ascii.eqb c " " then "" else String c (first_word s')
  end.

(** The effect on [userRating]: a truthy new rating counts one decision.
    [setUserRating] with the rating already held changes nothing, so no
    effect runs. *)
Definition rate (r : nat) (st : nat * nat) : nat * nat :=
  let (userRating, countRef) := st in
  if Nat.eqb r userRating then st
  else (r, if Nat.eqb r 0 then countRef else countRef + 1).

Definition rate_all (rs : list nat) (st : nat * nat) : nat * nat :=
  fold_left (fun st r => rate r st) rs st.

Section HandleAdd.
(** [Number(text)], the conversion of the platform. *)
Variable Number : string -> number.

(** [handleAdd]: the entry passed to [onAddWatched].  With [movie] still
    [{}] ([None]) [runtime] is [undefined] and [runtime.split] throws.
    The source keeps [runtime.split(" ").at(0)] as text; the entry holds
    the number this text stands for under [/], which is [Number] of it. *)
Definition handleAdd (selectedId : string) (movie : option Details)
    (userRating countRef : nat) : option WatchedMovie :=
  match movie with
  | Some m =>
      Some {| imdbID := selectedId;
              title := Title m;
              year := Year m;
              poster := Poster m;
              imdbRating := Number (imdbRatingText m);
              userRating := of_nat userRating;
              runtime := Number (first_word (Runtime m));
              countRatingDecisions := countRef |}
  | None => None
  end.

End HandleAdd.

(** ** The effect that fetches the details: no abort, no [catch] *)

Inductive DetailsOutcome :=
| DetailsRejects
| DetailsResolves (data : Details).

Record DetailsState := mkDetailsState {
  movie : option Details;
  isLoading : bool
}.

(** The component with its lookups in flight, each for the id it asked. *)
Record DetailsWorld := mkDetailsWorld {
  state : DetailsState;
  selectedId : string;
  inflight : gmap nat string;
  nextLookup : nat
}.

(** The effect run for a new [selectedId]: [getMovieDetails()] up to its
    first [await]. *)
Definition select (id : string) (w : DetailsWorld) : DetailsWorld :=
  {| state := {| movie := movie (state w); isLoading := true |};
     selectedId := id;
     inflight := <[nextLookup w := id]> (inflight w);
     nextLookup := S (nextLookup w) |}.

(** [getMovieDetails] from the settled lookup on: [setMovie(data)] unless
    something was thrown, then [finally]. *)
Definition getMovieDetails_resume (o : DetailsOutcome) (st : DetailsState)
  : DetailsState :=
  {| movie := match o with
              | DetailsResolves data => Some data
              | DetailsRejects => movie st
              end;
     isLoading := false |}.

Definition settle (r : nat) (o : DetailsOutcome) (w : DetailsWorld)
  : option DetailsWorld :=
  match inflight w !! r with
  | Some _ =>
      Some {| state := getMovieDetails_resume o (state w);
              selectedId := selectedId w;
              inflight := delete r (inflight w);
              nextLookup := nextLookup w |}
  | None => None
  end.

(** ** The effect on the tab title *)

(** [document.title] and whether the last effect run returned its cleanup. *)
Record TitleWorld := mkTitleWorld {
  document_title : string;
  restores : bool
}.

Definition title_cleanup (w : TitleWorld) : TitleWorld :=
  if restores w
  then {| document_title := "UsePopCorn"; restores := false |}
  else w.

(** The effect run for a new [title] ([None]: [undefined]), after the
    cleanup of the previous run. *)
Definition title_effect (title : option string) (w : TitleWorld) : TitleWorld :=
  let w1 := title_cleanup w in
  match title with
  | Some (String c t) =>
      {| document_title := ("Movie | " ++ String c t)%string; restores := true |}
  | _ => w1
  end.

Definition title_changes (titles : list (option string)) (w : TitleWorld) : TitleWorld :=
  fold_left (fun w t => title_effect t w) titles w.

(** [title] is truthy. *)
Definition has_title (title : option string) : bool :=
  match title with
  | Some (String _ _) => true
  | _ => false
  end.

(** ** The details panel over time *)

(** A render with [selectedId] (the effect runs when it changed) and the
    completion of a lookup. *)
Inductive DetailsEvent :=
| Selected (id : string)
| Settled (r : nat) (o : DetailsOutcome).

Definition details_step (w : DetailsWorld) (ev : DetailsEvent) : option DetailsWorld :=
  match ev with
  | Selected id => if String.eqb id (selectedId w) then Some w else Some (select id w)
  | Settled r o => settle r o w
  end.

Fixpoint details_run (w : DetailsWorld) (evs : list DetailsEvent) : option DetailsWorld :=
  match evs with
  | [] => Some w
  | ev :: evs' =>
      match details_step w ev with
      | Some w' => details_run w' evs'
      | None => None
      end
  end.

(** Lookups are numbered in the order they start. *)
Definition fresh_lookups (w : DetailsWorld) : Prop :=
  ∀ r, is_Some (inflight w !! r) → r < nextLookup w.

End MovieDetails.

(** * The handlers of App and what the interface lets the user do *)

Module AppHandlers.
Import App MovieDetails.
Local Open Scope nat_scope.
Local Open Scope list_scope.

Record AppState := mkApp {
  selected : option string;
  watched : list WatchedMovie
}.

(** [setSelectedId(selectedId === id ? null : id)] *)
Definition handleSelectMovie (id : string) (s : AppState) : AppState :=
  {| selected := if decide (selected s = Some id) then None else Some id;
     watched := watched s |}.

Definition handleCloseMovie (s : AppState) : AppState :=
  {| selected := None; watched := watched s |}.

(** [setWatched((watched) => [...watched, movie])] *)
Definition handleAddWatached (movie : WatchedMovie) (s : AppState) : AppState :=
  {| selected := selected s; watched := watched s ++ [movie] |}.

Definition deleteWatched (id : string) (s : AppState) : AppState :=
  {| selected := selected s; watched := handleDeleteWatched id (watched s) |}.

(** What the rendered interface offers.  The details (with the "Add to
    list" button when the movie is not in the list and a rating was given)
    are rendered while [selectedId] is truthy, the watched list with its
    delete buttons otherwise.  A click on "Add to list" comes with the
    state of the details panel: [movie] is [None] while it is still [{}],
    as it stays when the lookup of the details failed. *)
Inductive UiEvent :=
| SelectMovie (id : string)
| CloseMovie
| AddToList (movie : option Details) (userRating countRef : nat)
| DeleteWatched (id : string).

Section Ui.
Variable Number : string -> number.

Definition ui_step (s : AppState) (ev : UiEvent) : option AppState :=
  match ev with
  | SelectMovie id => Some (handleSelectMovie id s)
  | CloseMovie => Some (handleCloseMovie s)
  | AddToList movie userRating countRef =>
      match selected s with
      | Some (String c i) =>
          if negb (isWatched (String c i) (watched s)) && (0 <? userRating)
          then
            match handleAdd Number (String c i) movie userRating countRef with
            | Some entry => Some (handleCloseMovie (handleAddWatached entry s))
            | None => Some s (* thrown before [onAddWatched] is reached *)
            end
          else None
      | _ => None
      end
  | DeleteWatched id =>
      match selected s with
      | Some (String _ _) => None
      | _ =>
          if isWatched id (watched s) then Some (deleteWatched id s) else None
      end
  end.

Fixpoint ui_run (s : AppState) (evs : list UiEvent) : option AppState :=
  match evs with
  | [] => Some s
  | ev :: evs' =>
      match ui_step s ev with
      | Some s' => ui_run s' evs'
      | None => None
      end
  end.

End Ui.

End AppHandlers.

(** * Several uses of useLocalStorage on one storage *)

Module StorageRuns.
Import Json UseLocalStorage.
Local Open Scope list_scope.

(** Successive [setValue] calls, each under the key of its hook, with the
    effect that follows each. *)
Fixpoint setValues (updates : list (string * value)) (ls : Storage) : option Storage :=
  match updates with
  | [] => Some ls
  | (key, v) :: rest =>
      match persist key v ls with
      | Some ls' => setValues rest ls'
      | None => None
      end
  end.

(** The value of the last update made under [key]. *)
Fixpoint last_for (key : string) (updates : list (string * value)) : option value :=
  match updates with
  | [] => None
  | (k, v) :: rest =>
      match last_for key rest with
      | Some v' => Some v'
      | None => if String.eqb k key then Some v else None
      end
  end.

Definition is_array (v : value) : bool :=
  match v with JArray _ => true | _ => false end.

(** The code units of a string as one-character strings: what spreading a
    string gives. *)
Definition characters (s : string) : list value :=
  map (fun c => JString (String c "")) (list_ascii_of_string s).

End StorageRuns.

(** * Properties of useMovies *)

Section UseMoviesLifecycle.
Import UseMovies.

(** ** The continuation of [fetchMovies] *)

Lemma resume_cancelled o st :
  cancelled o = true → fetchMovies_resume o st = setIsLoading false st.
Proof.
  unfold cancelled, fetchMovies_resume.
  destruct (fetchMovies_try o) as [e|items]; [|discriminate].
  intros ->. reflexivity.
Qed.

Lemma resume_fields o st st' :
  movies st = movies st' → error st = error st' →
  fetchMovies_resume o st = fetchMovies_resume o st'.
Proof.
  destruct st, st'. cbn. intros -> ->. unfold fetchMovies_resume.
  destruct (fetchMovies_try o) as [e|items]; [destruct (negb _)|]; reflexivity.
Qed.

Lemma hook_eq st st' :
  movies st = movies st' → isLoading st = isLoading st' → error st = error st' →
  st = st'.
Proof. destruct st, st'. cbn. congruence. Qed.

(** ** Traces *)

Lemma run_app tr1 : ∀ tr2 w w',
  run w (tr1 ++ tr2) = Some w' ↔ ∃ w1, run w tr1 = Some w1 ∧ run w1 tr2 = Some w'.
Proof.
  induction tr1 as [|ev tr1 IH]; intros tr2 w w'; cbn [run app].
  - split; [eauto | intros (w1 & [= <-] & H); exact H].
  - destruct (step w ev) as [w2|]; [apply IH|].
    split; [discriminate | intros (w1 & H & _); discriminate].
Qed.

Lemma honours_abort_app tr1 : ∀ tr2 w w1,
  run w tr1 = Some w1 → honours_abort w (tr1 ++ tr2) = true →
  honours_abort w1 tr2 = true.
Proof.
  induction tr1 as [|ev tr1 IH]; intros tr2 w w1; cbn [run honours_abort app].
  - intros [= <-] H. exact H.
  - destruct (step w ev) as [w2|]; [|discriminate].
    intros Hrun [_ H]%andb_true_iff. eapply IH; eassumption.
Qed.

(** ** Invariants of the event loop *)

Lemma run_cleanup_aborts w c :
  cleanup w = Some c → c ∈ aborted (run_cleanup w).
Proof. unfold run_cleanup. intros ->. cbn. set_solver. Qed.

Lemma run_cleanup_fields w :
  hook (run_cleanup w) = hook w ∧ pending (run_cleanup w) = pending w ∧
  cleanup (run_cleanup w) = None ∧ next (run_cleanup w) = next w ∧
  mounted (run_cleanup w) = mounted w ∧ aborted w ⊆ aborted (run_cleanup w).
Proof.
  unfold run_cleanup. destruct (cleanup w) eqn:Hc; cbn; repeat split; auto; set_solver.
Qed.

Lemma run_cleanup_all_aborted w :
  superseded_aborted w →
  ∀ c q, pending (run_cleanup w) !! c = Some q → c ∈ aborted (run_cleanup w).
Proof.
  intros Hinv c q Hp.
  destruct (run_cleanup_fields w) as (_ & Hpend & _ & _ & _ & Hsub).
  rewrite Hpend in Hp. destruct (Hinv c q Hp) as [Hc|Hc].
  - apply run_cleanup_aborts, Hc.
  - apply Hsub, Hc.
Qed.

Lemma step_superseded_aborted w ev w' :
  superseded_aborted w → step w ev = Some w' → superseded_aborted w'.
Proof.
  intros Hinv Hstep. pose proof (run_cleanup_all_aborted w Hinv) as Hall.
  destruct ev as [q| |c o]; cbn [step] in Hstep.
  - destruct (mounted w); [|discriminate]. injection Hstep as <-.
    unfold useMovies_effect. destruct (String.length q <? 3)%nat; intros c' q' Hp; cbn in *.
    + right. eapply Hall, Hp.
    + destruct (decide (next (run_cleanup w) = c')) as [->|Hne]; [left; reflexivity|].
      rewrite lookup_insert_ne in Hp by assumption. right. eapply Hall, Hp.
  - destruct (mounted w); [|discriminate]. injection Hstep as <-.
    intros c' q' Hp. cbn in *. right. eapply Hall, Hp.
  - destruct (pending w !! c) eqn:Hc; [|discriminate]. injection Hstep as <-.
    intros c' q' Hp. cbn in *.
    destruct (decide (c = c')) as [->|Hne]; [rewrite lookup_delete_eq in Hp; discriminate|].
    rewrite lookup_delete_ne in Hp by assumption. eapply Hinv, Hp.
Qed.

Lemma step_loading_pending w ev w' :
  loading_pending w → step w ev = Some w' → loading_pending w'.
Proof.
  intros Hinv Hstep.
  destruct (run_cleanup_fields w) as (Hhook & Hpend & _).
  destruct ev as [q| |c o]; cbn [step] in Hstep.
  - destruct (mounted w); [|discriminate]. injection Hstep as <-.
    unfold useMovies_effect, loading_pending.
    destruct (String.length q <? 3)%nat; cbn.
    + rewrite Hhook, Hpend. exact Hinv.
    + intros _ Hempty.
      apply (f_equal (fun m : gmap nat string => m !! next (run_cleanup w))) in Hempty.
      rewrite lookup_insert_eq, lookup_empty in Hempty. discriminate.
  - destruct (mounted w); [|discriminate]. injection Hstep as <-.
    unfold loading_pending. cbn. rewrite Hhook, Hpend. exact Hinv.
  - destruct (pending w !! c); [|discriminate]. injection Hstep as <-.
    unfold loading_pending. cbn. discriminate.
Qed.

Lemma reachable_invariants w :
  reachable w → superseded_aborted w ∧ loading_pending w.
Proof.
  intros [tr Hrun].
  assert (Hinit : superseded_aborted init ∧ loading_pending init).
  { split; [intros c q Hp; cbn in Hp; rewrite lookup_empty in Hp|]; discriminate. }
  revert Hrun Hinit. generalize init as w0. induction tr as [|ev tr IH]; intros w0; cbn [run].
  - intros [= ->] H. exact H.
  - destruct (step w0 ev) as [w1|] eqn:Hstep; [|discriminate].
    intros Hrun [H1 H2]. apply (IH w1 Hrun). split.
    + eapply step_superseded_aborted; eassumption.
    + eapply step_loading_pending; eassumption.
Qed.

(** ** Settling what is in flight

    Along a run of [Settle] events under a transport that honours aborts,
    either the call of the last effect run has not settled, and then
    [movies] and [error] are untouched; or it has settled with some outcome
    [o], and the hook state is what [fetchMovies] leaves for [o]. *)

Lemma settle_run post : ∀ w w',
  superseded_aborted w →
  forallb is_settle post = true →
  honours_abort w post = true →
  run w post = Some w' →
  quiet w w' post ∨ live_settled w w' post.
Proof.
  induction post as [|ev post IH]; intros w w' Hinv Hsettle Hhon Hrun.
  { injection Hrun as <-. left. repeat split; auto. congruence. }
  cbn [forallb] in Hsettle. apply andb_true_iff in Hsettle as [Hev Hsettle].
  destruct ev as [q| |c o]; try discriminate Hev.
  cbn [run honours_abort] in Hrun, Hhon.
  destruct (step w (Settle c o)) as [w1|] eqn:Hstep; [|discriminate].
  apply andb_true_iff in Hhon as [Hhon1 Hhon].
  pose proof (step_superseded_aborted _ _ _ Hinv Hstep) as Hinv1.
  cbn [step] in Hstep. destruct (pending w !! c) as [qc|] eqn:Hc; [|discriminate].
  injection Hstep as <-.
  specialize (IH _ w' Hinv1 Hsettle Hhon Hrun). cbn [event_honours_abort] in Hhon1.
  destruct (decide (cleanup w = Some c)) as [Hlive|Hother].
  - (* the call of the last effect run settles here *)
    right. exists c, o. rewrite Hc. repeat split; eauto; [left; reflexivity | |].
    + destruct IH as [(Hp & _)|(c' & o' & Hcl & [q' Hq'] & _)]; cbn [hook pending cleanup aborted mounted next] in *.
      * rewrite (Hp c Hlive). apply lookup_delete_eq.
      * rewrite Hlive in Hcl. injection Hcl as <-.
        rewrite lookup_delete_eq in Hq'. discriminate.
    + destruct IH as [(_ & Hm & He & Hnil & Hcons)|(c' & o' & Hcl & [q' Hq'] & _)];
        cbn [hook pending cleanup aborted mounted next] in *.
      * apply hook_eq; [assumption | | assumption].
        destruct post; [rewrite Hnil by reflexivity; reflexivity|].
        rewrite Hcons by discriminate. reflexivity.
      * rewrite Hlive in Hcl. injection Hcl as <-.
        rewrite lookup_delete_eq in Hq'. discriminate.
  - (* a superseded call settles: its controller is aborted *)
    assert (Hab : c ∈ aborted w) by (destruct (Hinv c qc Hc); [contradiction|assumption]).
    destruct (decide (c ∈ aborted w)); [|contradiction].
    pose proof (resume_cancelled o (hook w) Hhon1) as Hres.
    destruct IH as [(Hp & Hm & He & Hnil & Hcons)|(c' & o' & Hcl & [q' Hq'] & Hin & Hgone & Hh)];
      cbn [hook pending cleanup aborted mounted next] in *.
    + left. repeat split.
      * intros c' Hc'. rewrite (Hp c' Hc'). apply lookup_delete_ne. congruence.
      * rewrite Hm, Hres. reflexivity.
      * rewrite He, Hres. reflexivity.
      * discriminate.
      * intros _. destruct post; [rewrite Hnil by reflexivity; reflexivity|].
        apply Hcons. discriminate.
    + right. exists c', o'. split; [assumption|]. split.
      { rewrite lookup_delete_ne in Hq' by congruence. eauto. }
      split; [right; assumption|]. split; [assumption|].
      rewrite Hh, Hres. apply resume_fields; reflexivity.
Qed.

(** ** The final state belongs to the last query *)

(** The state after the last query has settled, as the continuation of
    [fetchMovies] applied to the state held when the query was issued. *)
Lemma last_query_settles
    (pre post : list Event) (q : string) (w : World) :
  run init (pre ++ QueryChange q :: post) = Some w →
  honours_abort init (pre ++ QueryChange q :: post) = true →
  forallb is_settle post = true →
  pending w = ∅ →
  (∃ w0, run init pre = Some w0 ∧
     if (String.length q <? 3)%nat
     then hook w = {| movies := []; isLoading := false; error := Some "" |}
     else ∃ o, In (Settle (next w0) o) post ∧
               hook w = fetchMovies_resume o (fetchMovies_start (hook w0)))
  ∧
  (∀ (tr1 tr2 : list Event) c o wa wb,
     (pre ++ QueryChange q :: post = tr1 ++ Settle c o :: tr2)%list →
     run init tr1 = Some wa → c ∈ aborted wa →
     step wa (Settle c o) = Some wb →
     movies (hook wb) = movies (hook wa) ∧ error (hook wb) = error (hook wa)).
Proof.
  intros Hrun Hhon Hsettle Hdone. split.
  - apply run_app in Hrun as (w0 & Hpre & Hrun). exists w0. split; [assumption|].
    pose proof (honours_abort_app _ _ _ _ Hpre Hhon) as Hhon0.
    destruct (reachable_invariants w0 (ex_intro _ pre Hpre)) as [Hinv0 Hload0].
    cbn [run honours_abort] in Hrun, Hhon0.
    destruct (step w0 (QueryChange q)) as [w1|] eqn:Hstep; [|discriminate].
    apply andb_true_iff in Hhon0 as [_ Hhon1].
    pose proof (step_superseded_aborted _ _ _ Hinv0 Hstep) as Hinv1.
    pose proof (step_loading_pending _ _ _ Hload0 Hstep) as Hload1.
    destruct (settle_run post w1 w Hinv1 Hsettle Hhon1 Hrun) as [Hq|Hl];
      cbn [step] in Hstep; (destruct (mounted w0); [|discriminate]);
      injection Hstep as <-; unfold useMovies_effect in *;
      destruct (run_cleanup_fields w0) as (Hhook & _ & _ & Hnext & _);
      destruct (String.length q <? 3)%nat.
    + destruct Hq as (_ & Hm & He & Hnil & Hcons).
      cbn [hook pending cleanup] in *. apply hook_eq; cbn; auto.
      destruct post as [|ev post]; [|apply Hcons; discriminate].
      specialize (Hnil eq_refl). subst w. cbn [hook pending] in *. cbn.
      destruct (isLoading (hook (run_cleanup w0))) eqn:Hl; [|reflexivity].
      exfalso. apply Hload1; [cbn; exact Hl | exact Hdone].
    + destruct Hq as (Hp & _). cbn [hook pending cleanup] in *.
      specialize (Hp _ eq_refl). rewrite Hdone, lookup_empty, lookup_insert_eq in Hp.
      discriminate.
    + destruct Hl as (c & o & Hc & _). cbn [cleanup] in Hc. discriminate.
    + destruct Hl as (c & o & Hc & _ & Hin & _ & Hh). cbn [hook cleanup] in *.
      injection Hc as <-. exists o. rewrite <- Hnext, <- Hhook. auto.
  - intros tr1 tr2 c o wa wb Heq Hwa Hab Hstep. rewrite Heq in Hhon.
    pose proof (honours_abort_app _ _ _ _ Hwa Hhon) as Hhon1.
    cbn [honours_abort event_honours_abort] in Hhon1.
    apply andb_true_iff in Hhon1 as [Hc _].
    destruct (decide (c ∈ aborted wa)); [|contradiction].
    cbn [step] in Hstep. destruct (pending wa !! c); [|discriminate].
    injection Hstep as <-. cbn [hook]. rewrite (resume_cancelled _ _ Hc). auto.
Qed.

(** C1, as stated, fails in two ways.  After "ali" was found and "alien"
    is not found, everything has settled and [movies] still holds the
    answer for "ali".  And when the aborted lookup for "ali" settles while
    the one for "alien" is in flight, it turns off the spinner that the
    later query had turned on. *)
Lemma last_query_not_alone :
  (hook <$> run init [QueryChange "ali"; Settle 0 (found [ali]);
                      QueryChange "alien"; Settle 1 not_found]
   = Some {| movies := [ali]; isLoading := false; error := Some "Movie not found" |}
   ∧ honours_abort init [QueryChange "ali"; Settle 0 (found [ali]);
                         QueryChange "alien"; Settle 1 not_found] = true)
  ∧
  (∃ wa wb,
     run init [QueryChange "ali"; QueryChange "alien"] = Some wa ∧
     0 ∈ aborted wa ∧ is_Some (pending wa !! 1) ∧
     step wa (Settle 0 aborted_fetch) = Some wb ∧
     isLoading (hook wa) = true ∧ isLoading (hook wb) = false ∧
     is_Some (pending wb !! 1)).
Proof.
  split; [split; vm_compute; reflexivity|].
  destruct (run init [QueryChange "ali"; QueryChange "alien"]) as [wa|] eqn:Ha;
    [|vm_compute in Ha; discriminate].
  destruct (step wa (Settle 0 aborted_fetch)) as [wb|] eqn:Hb;
    [|vm_compute in Ha; injection Ha as <-; vm_compute in Hb; discriminate].
  exists wa, wb. split; [reflexivity|].
  vm_compute in Ha. injection Ha as <-. vm_compute in Hb. injection Hb as <-.
  split; [apply (bool_decide_unpack _); vm_compute; exact I|].
  split; [vm_compute; eauto|]. split; [reflexivity|].
  split; [reflexivity|]. split; [reflexivity|]. vm_compute. eauto.
Qed.

(** C1 (amended). Take any run of the hook from its first render in which
    the transport honours aborts: after the last query change [q] only
    lookups settle, and in the end none is in flight.  Then the spinner is
    off.  For a query shorter than 3 characters [movies] is empty and
    [error] is the empty string.  Otherwise the lookup issued for [q] has
    settled with some outcome [o]: when [o] carries items, [movies] holds
    them and [error] is the empty string; when [o] is a failure, [error] is
    its message (the empty string for an [AbortError]) and [movies] is what
    it was when [q] was issued, the answer of an earlier query.  Moreover a
    lookup that settles after its controller was aborted writes nothing but
    [isLoading], which it sets to false, also while a later lookup is in
    flight. *)
Theorem final_state_reflects_last_query
    (pre post : list Event) (q : string) (w : World) :
  run init (pre ++ QueryChange q :: post) = Some w →
  honours_abort init (pre ++ QueryChange q :: post) = true →
  forallb is_settle post = true →
  pending w = ∅ →
  (∃ w0, run init pre = Some w0 ∧
     isLoading (hook w) = false ∧
     if (String.length q <? 3)%nat
     then movies (hook w) = [] ∧ error (hook w) = Some ""
     else ∃ o, In (Settle (next w0) o) post ∧
               match fetchMovies_try o with
               | inr items =>
                   movies (hook w) = items ∧ error (hook w) = Some ""
               | inl e =>
                   movies (hook w) = movies (hook w0) ∧
                   error (hook w) =
                     Some (if String.eqb (name e) "AbortError" then "" else message e)
               end)
  ∧
  (∀ (tr1 tr2 : list Event) c o wa wb,
     (pre ++ QueryChange q :: post = tr1 ++ Settle c o :: tr2)%list →
     run init tr1 = Some wa → c ∈ aborted wa →
     step wa (Settle c o) = Some wb →
     hook wb = setIsLoading false (hook wa)).
Proof.
  intros Hrun Hhon Hsettle Hdone.
  destruct (last_query_settles pre post q w Hrun Hhon Hsettle Hdone)
    as [(w0 & Hpre & Hlast) _].
  split.
  - exists w0. split; [exact Hpre|].
    destruct (String.length q <? 3)%nat.
    + rewrite Hlast. auto.
    + destruct Hlast as (o & Hin & ->). unfold fetchMovies_resume.
      split; [reflexivity|]. exists o. split; [exact Hin|].
      destruct (fetchMovies_try o) as [e|items]; cbn.
      * destruct (String.eqb (name e) "AbortError"); cbn; auto.
      * auto.
  - intros tr1 tr2 c o wa wb Heq Hwa Hab Hstep. rewrite Heq in Hhon.
    pose proof (honours_abort_app _ _ _ _ Hwa Hhon) as Hhon1.
    cbn [honours_abort event_honours_abort] in Hhon1.
    apply andb_true_iff in Hhon1 as [Hc _].
    destruct (decide (c ∈ aborted wa)); [|contradiction].
    cbn [step] in Hstep. destruct (pending wa !! c); [|discriminate].
    injection Hstep as <-. cbn [hook]. apply resume_cancelled, Hc.
Qed.

(** "ali" is found; "alie" is issued and superseded by "alien", which is
    not found; the aborted lookup for "alie" settles last. *)
Lemma final_state_reflects_last_query_witness :
  ∃ w, run init ([QueryChange "ali"; Settle 0 (found [ali]); QueryChange "alie"] ++
                 QueryChange "alien" :: [Settle 2 not_found; Settle 1 aborted_fetch])
       = Some w ∧
       hook w = {| movies := [ali]; isLoading := false;
                   error := Some "Movie not found" |} ∧
       ∃ w0, run init [QueryChange "ali"; Settle 0 (found [ali]); QueryChange "alie"]
             = Some w0 ∧
             isLoading (hook w) = false ∧
             ∃ o, In (Settle (next w0) o) [Settle 2 not_found; Settle 1 aborted_fetch] ∧
                  match fetchMovies_try o with
                  | inr items =>
                      movies (hook w) = items ∧ error (hook w) = Some ""
                  | inl e =>
                      movies (hook w) = movies (hook w0) ∧
                      error (hook w) =
                        Some (if String.eqb (name e) "AbortError"
                              then "" else message e)
                  end.
Proof.
  destruct (run init ([QueryChange "ali"; Settle 0 (found [ali]); QueryChange "alie"] ++
                      QueryChange "alien" ::
                      [Settle 2 not_found; Settle 1 aborted_fetch]))
    as [w|] eqn:Hrun; [|vm_compute in Hrun; discriminate].
  exists w. split; [reflexivity|]. split.
  - vm_compute in Hrun. injection Hrun as <-. reflexivity.
  - apply (final_state_reflects_last_query _ _ "alien" w Hrun).
    + vm_compute. reflexivity.
    + reflexivity.
    + vm_compute in Hrun. injection Hrun as <-. reflexivity.
Defined.

(** The scenario of the spec: "", "a", "ab", "aba" in immediate succession.
    Only the last effect run issues a request; before it settles the three
    short queries have left the cleared state. *)
Example one_request_for_aba :
  (λ w, (hook w, dom (pending w))) <$>
    run init [QueryChange ""; QueryChange "a"; QueryChange "ab"] =
    Some ({| movies := []; isLoading := false; error := Some "" |}, ∅)
  ∧ (λ w, (hook w, dom (pending w))) <$>
    run init [QueryChange ""; QueryChange "a"; QueryChange "ab"; QueryChange "aba"] =
    Some ({| movies := []; isLoading := true; error := Some "" |}, {[3]})
  ∧ (λ w, (hook w, dom (pending w))) <$>
    run init [QueryChange ""; QueryChange "a"; QueryChange "ab"; QueryChange "aba";
              Settle 3 (found [alien])] =
    Some ({| movies := [alien]; isLoading := false; error := Some "" |}, ∅).
Proof. repeat split; vm_compute; reflexivity. Qed.

(** ** Failed lookups *)

Lemma lookup_failure_try o msg :
  LookupFailure o msg →
  ∃ e, fetchMovies_try o = inl e ∧ message e = msg ∧
       String.eqb (name e) "AbortError" = false.
Proof. intros [e He|body|items]; cbn; eauto. Qed.

(** A qualifying query followed by the settling of its lookup. *)
Lemma lookup_run (w : World) (q : string) (o : FetchOutcome) :
  mounted w = true →
  (3 <= String.length q)%nat →
  ∃ w', run w [QueryChange q; Settle (next w) o] = Some w' ∧
        hook w' = fetchMovies_resume o (fetchMovies_start (hook w)).
Proof.
  intros Hm Hq. cbn [run step]. rewrite Hm.
  destruct (run_cleanup_fields w) as (Hhook & _ & _ & Hnext & _).
  unfold useMovies_effect. destruct (Nat.ltb_spec (String.length q) 3) as [|_]; [lia|].
  cbn [pending next]. rewrite Hnext, lookup_insert_eq. eexists. split; [reflexivity|].
  cbn [hook]. rewrite Hhook. reflexivity.
Qed.

Lemma resume_failure o msg st :
  LookupFailure o msg →
  fetchMovies_resume o (fetchMovies_start st)
  = {| movies := movies st; isLoading := false; error := Some msg |}.
Proof.
  intros Hfail. destruct (lookup_failure_try o msg Hfail) as (e & Htry & <- & Hname).
  unfold fetchMovies_resume. rewrite Htry, Hname. reflexivity.
Qed.

(** The three kinds of failure, on a first query. *)
Example failures_by_kind :
  hook <$> run init [QueryChange "alien"; Settle 0 http_failure]
  = Some {| movies := []; isLoading := false;
            error := Some "Something went wrong with fetching movies" |}
  ∧ hook <$> run init [QueryChange "alien"; Settle 0 not_found]
    = Some {| movies := []; isLoading := false; error := Some "Movie not found" |}
  ∧ hook <$> run init [QueryChange "alien";
                       Settle 0 (FetchRejects {| name := "TypeError";
                                                 message := "Failed to fetch" |})]
    = Some {| movies := []; isLoading := false; error := Some "Failed to fetch" |}.
Proof. repeat split; vm_compute; reflexivity. Qed.




(** C6. When the provider answers a qualifying query with
    [Response = "False"], the hook ends with the error "Movie not found",
    the spinner off, and [movies] not written: neither the answer's items
    nor an empty list are stored. *)
Theorem not_found_is_an_error
    (w : World) (q : string) (items : list Movie) :
  mounted w = true →
  (3 <= String.length q)%nat →
  ∃ w', run w [QueryChange q;
               Settle (next w)
                 (FetchResolves
                    {| ok := true;
                       json := JsonResolves {| Response := "False"; Search := items |} |})]
        = Some w' ∧
        error (hook w') = Some "Movie not found" ∧
        truthy (error (hook w')) = true ∧
        isLoading (hook w') = false ∧
        movies (hook w') = movies (hook w) ∧
        render_results (hook w') = [ErrorMessage "Movie not found"].
Proof.
  intros Hm Hq.
  destruct (lookup_run w q
              (FetchResolves
                 {| ok := true;
                    json := JsonResolves {| Response := "False"; Search := items |} |})
              Hm Hq) as (w' & Hrun & Hhook).
  exists w'. split; [exact Hrun|].
  rewrite Hhook, (resume_failure _ _ _ (ProviderNotFound items)). repeat split.
Qed.

Lemma not_found_is_an_error_witness :
  ∃ w', run init [QueryChange "zzzz"; Settle 0 not_found] = Some w' ∧
        error (hook w') = Some "Movie not found" ∧
        truthy (error (hook w')) = true ∧
        isLoading (hook w') = false ∧
        movies (hook w') = [] ∧
        render_results (hook w') = [ErrorMessage "Movie not found"].
Proof.
  apply (not_found_is_an_error init "zzzz" []); [reflexivity | cbn; lia].
Defined.

(** ** Short queries *)




(** ** Cancelled lookups *)





(** C7, as the spec words it, fails: there is no check of the token at
    completion.  When the transport does not honour the abort and the
    answer for "ali" arrives after the one for "alien", it is stored. *)
Lemma late_answer_overwrites :
  ∃ w w', run init [QueryChange "ali"; QueryChange "alien";
                    Settle 1 (found [alien])] = Some w ∧
          0 ∈ aborted w ∧ movies (hook w) = [alien] ∧
          step w (Settle 0 (found [ali])) = Some w' ∧
          movies (hook w') = [ali].
Proof.
  eexists _, _. split; [vm_compute; reflexivity|].
  split; [apply (bool_decide_unpack _); vm_compute; exact I|].
  split; [reflexivity|]. split; [vm_compute; reflexivity|]. reflexivity.
Qed.

(** C7, amended. A lookup that settles after its controller was aborted
    is resumed like any other.  When the transport honours the abort (the
    lookup ends in an [AbortError]) [movies] and [error] are not written
    and the only write is [setIsLoading(false)].  When it does not, the
    outcome is stored: the items in [movies], or the message in [error]. *)
Theorem late_completion
    (w : World) (c : nat) (o : FetchOutcome) :
  is_Some (pending w !! c) →
  c ∈ aborted w →
  ∃ w', step w (Settle c o) = Some w' ∧
        hook w' = fetchMovies_resume o (hook w) ∧
        (event_honours_abort w (Settle c o) = true →
           hook w' = setIsLoading false (hook w)) ∧
        (cancelled o = false →
           match fetchMovies_try o with
           | inr items => movies (hook w') = items
           | inl e => error (hook w') = Some (message e)
           end).
Proof.
  intros [q Hp] Hab. cbn [step]. rewrite Hp. eexists. split; [reflexivity|].
  cbn [hook]. split; [reflexivity|]. split.
  - cbn [event_honours_abort]. destruct (decide (c ∈ aborted w)); [|contradiction].
    apply resume_cancelled.
  - unfold cancelled, fetchMovies_resume.
    destruct (fetchMovies_try o) as [e|items]; [intros ->|]; reflexivity.
Qed.

Lemma late_completion_witness :
  ∃ w, run init [QueryChange "ali"; QueryChange "alien"] = Some w ∧
  ∃ w', step w (Settle 0 aborted_fetch) = Some w' ∧
        hook w' = fetchMovies_resume aborted_fetch (hook w) ∧
        (event_honours_abort w (Settle 0 aborted_fetch) = true →
           hook w' = setIsLoading false (hook w)) ∧
        (cancelled aborted_fetch = false →
           match fetchMovies_try aborted_fetch with
           | inr items => movies (hook w') = items
           | inl e => error (hook w') = Some (message e)
           end).
Proof.
  eexists. split; [reflexivity|].
  apply (late_completion _ 0 aborted_fetch).
  - exists "ali". vm_compute. reflexivity.
  - apply (bool_decide_unpack _); vm_compute; exact I.
Defined.

(** ** Teardown *)

(** C4, as the spec words it, fails: after the teardown the aborted lookup
    still runs its [finally] block, which turns [isLoading] off. *)
Lemma teardown_then_isLoading_written :
  ∃ w w', run init [QueryChange "alien"; Unmount] = Some w ∧
          0 ∈ aborted w ∧ isLoading (hook w) = true ∧
          step w (Settle 0 aborted_fetch) = Some w' ∧
          isLoading (hook w') = false ∧ hook w' ≠ hook w.
Proof.
  eexists _, _. split; [vm_compute; reflexivity|].
  split; [apply (bool_decide_unpack _); vm_compute; exact I|].
  split; [reflexivity|]. split; [vm_compute; reflexivity|].
  split; [reflexivity|]. discriminate.
Qed.

(** C4, amended. When the hook is torn down while the lookup of the last
    effect run is in flight, the cleanup aborts its controller, writes
    nothing and leaves the lookup in flight.  Under a transport that
    honours aborts, whatever settles afterwards leaves [movies] and [error]
    as they were at the teardown; the only write made for an aborted lookup
    is [setIsLoading(false)]. *)
Theorem teardown_aborts_and_keeps_results
    (tr post : list Event) (w w' : World) (c : nat) :
  run init tr = Some w →
  cleanup w = Some c →
  is_Some (pending w !! c) →
  forallb is_settle post = true →
  honours_abort w (Unmount :: post) = true →
  run w (Unmount :: post) = Some w' →
  (∃ w1, step w Unmount = Some w1 ∧ c ∈ aborted w1 ∧
         is_Some (pending w1 !! c) ∧ hook w1 = hook w) ∧
  movies (hook w') = movies (hook w) ∧
  error (hook w') = error (hook w) ∧
  hook w' = match post with
            | [] => hook w
            | _ :: _ => setIsLoading false (hook w)
            end.
Proof.
  intros Hreach Hc Hflight Hsettle Hhon Hrun.
  destruct (reachable_invariants w (ex_intro _ tr Hreach)) as [Hinv _].
  cbn [run honours_abort] in Hrun, Hhon.
  destruct (step w Unmount) as [w1|] eqn:Hstep; [|discriminate].
  apply andb_true_iff in Hhon as [_ Hhon].
  pose proof (step_superseded_aborted _ _ _ Hinv Hstep) as Hinv1.
  destruct (run_cleanup_fields w) as (Hhook & Hpend & _).
  pose proof (run_cleanup_aborts w c Hc) as Hab.
  cbn [step] in Hstep. destruct (mounted w); [|discriminate].
  injection Hstep as <-. split.
  { eexists. split; [reflexivity|]. cbn [aborted pending hook].
    rewrite Hpend. auto. }
  destruct (settle_run post _ w' Hinv1 Hsettle Hhon Hrun)
    as [(_ & Hm & He & Hnil & Hcons)|(c' & o & Hcl & _)]; [|discriminate Hcl].
  cbn [hook] in *. rewrite Hhook in Hm, He. split; [exact Hm|]. split; [exact He|].
  destruct post as [|ev post].
  - rewrite (Hnil eq_refl). exact Hhook.
  - apply hook_eq; cbn; auto; apply Hcons; discriminate.
Qed.

Lemma teardown_aborts_and_keeps_results_witness :
  ∃ w w', run init [QueryChange "alien"] = Some w ∧
    run w [Unmount; Settle 0 aborted_fetch] = Some w' ∧
    (∃ w1, step w Unmount = Some w1 ∧ 0 ∈ aborted w1 ∧
           is_Some (pending w1 !! 0) ∧ hook w1 = hook w) ∧
    movies (hook w') = movies (hook w) ∧
    error (hook w') = error (hook w) ∧
    hook w' = setIsLoading false (hook w).
Proof.
  eexists _, _. split; [reflexivity|]. split; [vm_compute; reflexivity|].
  apply (teardown_aborts_and_keeps_results
           [QueryChange "alien"] [Settle 0 aborted_fetch] _ _ 0).
  - reflexivity.
  - reflexivity.
  - exists "alien". vm_compute. reflexivity.
  - reflexivity.
  - vm_compute. reflexivity.
  - vm_compute. reflexivity.
Defined.

End UseMoviesLifecycle.

(** * Properties of JSON.stringify and JSON.parse *)

Section JsonRoundTrip.
Import Json.

(** ** Texts *)

Lemma string_app_cons c s t : String c s ++ t = String c (s ++ t).
Proof. reflexivity. Qed.

Lemma string_app_nil_l t : "" ++ t = t.
Proof. reflexivity. Qed.

Lemma string_app_nil_r s : s ++ "" = s.
Proof. induction s as [|c s IH]; [reflexivity|]. rewrite string_app_cons, IH. reflexivity. Qed.

Lemma string_app_assoc s t u : (s ++ t) ++ u = s ++ t ++ u.
Proof. induction s as [|c s IH]; [reflexivity|]. rewrite !string_app_cons, IH. reflexivity. Qed.

Lemma string_length_app s t : String.length (s ++ t) = String.length s + String.length t.
Proof. induction s as [|c s IH]; [reflexivity|]. rewrite string_app_cons. simpl. rewrite IH. reflexivity. Qed.

(** ** Strings: reading back an escaped text *)

Lemma read_string_escape_char c t :
  read_string (escape_char c ++ t) = cons_char c (read_string t).
Proof.
  destruct c as [[] [] [] [] [] [] [] []]; reflexivity.
Qed.

Lemma read_string_escape s rest :
  read_string (escape s ++ String dquote rest) = Some (s, rest).
Proof.
  induction s as [|c s IH].
  - reflexivity.
  - cbn [escape]. rewrite string_app_assoc, read_string_escape_char, IH. reflexivity.
Qed.

(** ** Numbers: reading back a decimal text *)

Lemma read_digits_digit c d s :
  digit_of c = Some d →
  read_digits (String c s) = (d (fst (read_digits s)), snd (read_digits s)).
Proof.
  intros H. cbn [read_digits]. rewrite H. destruct (read_digits s). reflexivity.
Qed.

Lemma read_digits_text u rest :
  digits_end rest →
  read_digits (NilEmpty.string_of_uint u ++ rest) = (u, rest).
Proof.
  intros Hrest.
  induction u as [|u IH|u IH|u IH|u IH|u IH|u IH|u IH|u IH|u IH|u IH];
    cbn [NilEmpty.string_of_uint]; rewrite ?string_app_cons;
    [| erewrite read_digits_digit by reflexivity; rewrite IH; reflexivity ..].
  rewrite string_app_nil_l. destruct rest as [|c r]; [reflexivity|].
  cbn [read_digits]. cbn in Hrest. rewrite Hrest. reflexivity.
Qed.

Lemma unorm_fixed_shape u :
  Decimal.unorm u = u →
  u = Decimal.D0 Decimal.Nil ∨
  match u with Decimal.Nil | Decimal.D0 _ => False | _ => True end.
Proof.
  destruct u; intros H; try (right; exact I).
  - discriminate H.
  - left. destruct u; try reflexivity; exfalso;
      match type of H with Decimal.unorm (Decimal.D0 ?v) = _ =>
        assert (Hn : v ≠ Decimal.Nil) by discriminate;
        pose proof (nb_digits_unorm v Hn) as Hle;
        rewrite unorm_D0 in H; rewrite H in Hle; cbn in Hle; lia
      end.
Qed.

Lemma to_uint_shape n :
  N.to_uint n = Decimal.D0 Decimal.Nil ∨
  match N.to_uint n with Decimal.Nil | Decimal.D0 _ => False | _ => True end.
Proof.
  apply unorm_fixed_shape.
  rewrite <- DecimalN.Unsigned.to_of, DecimalN.Unsigned.of_to. reflexivity.
Qed.

Lemma digits_head u rest :
  u ≠ Decimal.Nil →
  ∃ c t d, NilEmpty.string_of_uint u ++ rest = String c t ∧ digit_of c = Some d.
Proof.
  destruct u; intros H; [congruence|..];
    cbn [NilEmpty.string_of_uint]; rewrite string_app_cons; eauto.
Qed.

Lemma read_natural_text n rest :
  digits_end rest →
  read_natural (NilEmpty.string_of_uint (N.to_uint n) ++ rest) = Some (n, rest).
Proof.
  intros Hrest. unfold read_natural. rewrite read_digits_text by assumption.
  pose proof (DecimalN.Unsigned.of_to n) as Hn.
  destruct (to_uint_shape n) as [H0|Hs].
  - rewrite H0 in *. cbn in Hn. subst n. reflexivity.
  - destruct (N.to_uint n); try contradiction; rewrite Hn; reflexivity.
Qed.

Lemma digit_not_minus c d : digit_of c = Some d → Ascii.eqb c "-" = false.
Proof. destruct c as [[] [] [] [] [] [] [] []]; cbv; congruence. Qed.

Lemma to_uint_nonnil n : N.to_uint n ≠ Decimal.Nil.
Proof.
  destruct (to_uint_shape n) as [H|H]; [rewrite H; discriminate|].
  intros Hnil. rewrite Hnil in H. exact H.
Qed.

Lemma delimited_digits_end rest : delimited rest = true → digits_end rest.
Proof.
  destruct rest as [|c r]; cbn; [trivial|]. destruct (digit_of c); [discriminate|trivial].
Qed.

Lemma fraction_digits_end f rest :
  delimited rest = true → digits_end (fraction_text f ++ rest).
Proof.
  intros Hrest. destruct f; try reflexivity. apply delimited_digits_end, Hrest.
Qed.

Lemma read_fraction_text f rest :
  delimited rest = true →
  read_fraction (fraction_text f ++ rest) = Some (f, rest).
Proof.
  intros Hrest. pose proof (delimited_digits_end rest Hrest) as Hend.
  destruct f; cbn [fraction_text]; rewrite ?string_app_cons;
    [| unfold read_fraction; change (Ascii.eqb "." ".") with true; cbv iota;
       rewrite read_digits_text by assumption; reflexivity ..].
  rewrite string_app_nil_l. destruct rest as [|c r]; [reflexivity|].
  cbn in Hrest. unfold read_fraction. destruct (digit_of c); [discriminate|].
  apply negb_true_iff in Hrest. rewrite Hrest. reflexivity.
Qed.

Lemma read_unsigned_text neg w f rest :
  delimited rest = true →
  read_unsigned neg
    (NilEmpty.string_of_uint (N.to_uint w) ++ fraction_text f ++ rest)
  = Some ({| negative := neg; whole := w; fraction := f |}, rest).
Proof.
  intros Hrest. unfold read_unsigned.
  rewrite read_natural_text by (apply fraction_digits_end, Hrest).
  rewrite read_fraction_text by assumption. reflexivity.
Qed.

Lemma read_number_text n rest :
  delimited rest = true →
  read_number (number_text n ++ rest) = Some (n, rest).
Proof.
  intros Hrest. destruct n as [[] w f]; unfold number_text; cbn [negative whole fraction];
    rewrite !string_app_assoc.
  - rewrite string_app_cons, string_app_nil_l. unfold read_number.
    change (Ascii.eqb "-" "-") with true. cbv iota.
    apply read_unsigned_text, Hrest.
  - rewrite string_app_nil_l.
    pose proof (read_unsigned_text false w f rest Hrest) as Hread.
    destruct (digits_head (N.to_uint w) (fraction_text f ++ rest) (to_uint_nonnil w))
      as (c & t & d & Heq & Hd).
    rewrite Heq in *. unfold read_number. rewrite (digit_not_minus _ _ Hd). exact Hread.
Qed.

Lemma number_head n rest :
  ∃ c t, number_text n ++ rest = String c t ∧ is_number_start c = true.
Proof.
  destruct n as [[] w f]; unfold number_text; cbn [negative whole fraction];
    rewrite !string_app_assoc.
  - eexists _, _. rewrite string_app_cons. split; reflexivity.
  - rewrite string_app_nil_l.
    destruct (digits_head (N.to_uint w) (fraction_text f ++ rest) (to_uint_nonnil w))
      as (c & t & d & Heq & Hd).
    exists c, t. split; [assumption|]. unfold is_number_start. rewrite Hd. reflexivity.
Qed.

(** ** Values *)

(** Induction on values that reaches the items of arrays and objects. *)
Lemma value_nested_ind (P : value → Prop) :
  P JNull → (∀ b, P (JBool b)) → (∀ z, P (JNumber z)) → (∀ s, P (JString s)) →
  (∀ items, Forall P items → P (JArray items)) →
  (∀ members, Forall (fun kv => P (snd kv)) members → P (JObject members)) →
  ∀ v, P v.
Proof.
  intros Hnull Hbool Hnum Hstr Harr Hobj.
  fix IH 1. intros [| b | z | s | items | members].
  - exact Hnull.
  - apply Hbool.
  - apply Hnum.
  - apply Hstr.
  - apply Harr. induction items as [|v items IHitems]; constructor;
      [apply IH | exact IHitems].
  - apply Hobj. induction members as [|[k v] members IHm]; constructor;
      [apply IH | exact IHm].
Qed.

Lemma join_cons sep p ps :
  join sep (p :: ps) = p ++ match ps with [] => "" | _ :: _ => sep ++ join sep ps end.
Proof. destruct ps; cbn [join]; [rewrite string_app_nil_r|]; reflexivity. Qed.

Lemma number_start_not_closing c :
  is_number_start c = true → Ascii.eqb "]" c = false ∧ Ascii.eqb "}" c = false.
Proof. destruct c as [[] [] [] [] [] [] [] []]; cbv; intuition congruence. Qed.

Lemma stringify_not_closing v t :
  strip_prefix "]" (JSON_stringify v ++ t) = None ∧
  strip_prefix "}" (JSON_stringify v ++ t) = None.
Proof.
  destruct v as [| [] | z | s | items | members]; cbn [JSON_stringify];
    try (split; reflexivity).
  destruct (number_head z t) as (c & r & -> & Hc).
  destruct (number_start_not_closing c Hc) as [H1 H2].
  cbn [strip_prefix]. rewrite H1, H2. split; reflexivity.
Qed.

Lemma parse_value_number f z rest :
  delimited rest = true →
  parse_value (S f) (number_text z ++ rest) = Some (JNumber z, rest).
Proof.
  intros Hrest. pose proof (read_number_text z rest Hrest) as Hread.
  destruct (number_head z rest) as (c & r & Heq & Hc). rewrite Heq in *.
  cbn [parse_value]. rewrite Hc, Hread. reflexivity.
Qed.

Lemma parse_value_string f s rest :
  parse_value (S f) (quote s ++ rest) = Some (JString s, rest).
Proof.
  unfold quote. rewrite string_app_cons, string_app_assoc, string_app_cons, string_app_nil_l.
  cbn [parse_value]. change (is_number_start dquote) with false.
  change (Ascii.eqb dquote dquote) with true. cbv iota.
  rewrite read_string_escape. reflexivity.
Qed.

Lemma parse_elements_text items :
  Forall parses items → items ≠ [] →
  ∀ fuel rest,
    (fold_right (fun v n => S (size v + n)) 0 items ≤ fuel)%nat →
    parse_elements fuel (join "," (map JSON_stringify items) ++ String "]" rest)
    = Some (items, rest).
Proof.
  induction 1 as [|v items Hv Hitems IH]; [congruence|]. intros _ fuel rest Hfuel.
  cbn [fold_right] in Hfuel. destruct fuel as [|fuel]; [lia|].
  cbn [map]. rewrite join_cons, string_app_assoc. cbn [parse_elements].
  destruct items as [|v' items].
  - rewrite string_app_nil_l, Hv by (lia || reflexivity).
    change (Ascii.eqb "]" ",") with false. change (Ascii.eqb "]" "]") with true.
    reflexivity.
  - cbn [map] in *. cbv iota.
    rewrite string_app_assoc, string_app_cons, string_app_nil_l, Hv by (lia || reflexivity).
    change (Ascii.eqb "," ",") with true. cbv iota.
    rewrite IH by (congruence || (cbn [fold_right] in *; lia)). reflexivity.
Qed.

Lemma parse_members_text members :
  Forall (fun kv => parses (snd kv)) members → members ≠ [] →
  ∀ fuel rest,
    (fold_right (fun kv n => S (size (snd kv) + n)) 0 members ≤ fuel)%nat →
    parse_members fuel
      (join "," (map (fun kv => quote (fst kv) ++ ":" ++ JSON_stringify (snd kv)) members)
       ++ String "}" rest)
    = Some (members, rest).
Proof.
  induction 1 as [|[k v] members Hv Hmembers IH]; [congruence|].
  intros _ fuel rest Hfuel.
  cbn [fold_right snd] in Hfuel. destruct fuel as [|fuel]; [lia|].
  cbn [map fst snd]. rewrite join_cons, !string_app_assoc. unfold quote at 1.
  rewrite string_app_cons, string_app_assoc, !string_app_cons, !string_app_nil_l. cbn [parse_members].
  change (Ascii.eqb dquote dquote) with true. cbv iota.
  rewrite read_string_escape. change (Ascii.eqb ":" ":") with true. cbv iota.
  destruct members as [|m members].
  - rewrite ?string_app_nil_l, (Hv fuel) by (cbn [snd] in *; lia || reflexivity).
    change (Ascii.eqb "}" ",") with false. change (Ascii.eqb "}" "}") with true.
    reflexivity.
  - cbn [map] in *. cbv iota.
    rewrite ?string_app_assoc, ?string_app_cons, ?string_app_nil_l, (Hv fuel) by (cbn [snd] in *; lia || reflexivity).
    change (Ascii.eqb "," ",") with true. cbv iota.
    rewrite IH by (congruence || (cbn [fold_right] in *; lia)). reflexivity.
Qed.

Ltac norm_app := repeat (rewrite string_app_assoc || rewrite string_app_cons || rewrite string_app_nil_l).

(** Every value is read back from its text, with enough fuel. *)
Lemma parse_stringify v : parses v.
Proof.
  induction v as [| b | z | s | items IH | members IH] using value_nested_ind;
    intros fuel rest Hfuel Hrest; cbn [size] in Hfuel;
    (destruct fuel as [|fuel]; [lia|]); cbn [JSON_stringify].
  - reflexivity.
  - destruct b; reflexivity.
  - apply parse_value_number, Hrest.
  - apply parse_value_string.
  - norm_app.
    cbn [parse_value]. change (is_number_start "[") with false.
    change (Ascii.eqb "[" dquote) with false. change (Ascii.eqb "[" "[") with true.
    cbv iota. destruct items as [|v items]; [reflexivity|].
    cbn [map]. rewrite join_cons, string_app_assoc.
    rewrite (proj1 (stringify_not_closing v _)).
    rewrite <- string_app_assoc, <- join_cons.
    change (JSON_stringify v :: map JSON_stringify items)
      with (map JSON_stringify (v :: items)).
    rewrite parse_elements_text by (assumption || congruence || lia). reflexivity.
  - norm_app.
    cbn [parse_value]. change (is_number_start "{") with false.
    change (Ascii.eqb "{" dquote) with false. change (Ascii.eqb "{" "[") with false.
    change (Ascii.eqb "{" "{") with true. cbv iota.
    destruct members as [|[k v] members]; [reflexivity|].
    set (member := fun kv : string * value => quote (fst kv) ++ ":" ++ JSON_stringify (snd kv)).
    assert (Hhead : strip_prefix "}" (join "," (map member ((k, v) :: members))
                                      ++ String "}" rest) = None).
    { cbn [map]. rewrite join_cons. unfold member at 1, quote. reflexivity. }
    rewrite Hhead.
    rewrite parse_members_text by (assumption || congruence || lia). reflexivity.
Qed.

Lemma join_length_bound {A} (f : A → string) (sz : A → nat) (l : list A) :
  Forall (fun x => (sz x ≤ String.length (f x))%nat) l →
  (fold_right (fun x n => S (sz x + n)) 0 l
   ≤ String.length (join "," (map f l)) + 1)%nat.
Proof.
  induction 1 as [|x l Hx _ IH]; [cbn; lia|].
  cbn [map fold_right]. rewrite join_cons, string_length_app.
  destruct l as [|y l]; [cbn; lia|].
  cbn [map] in *. rewrite string_length_app. cbn [String.length]. lia.
Qed.

(** The length of the text is fuel enough. *)
Lemma size_le_length v : (size v ≤ String.length (JSON_stringify v))%nat.
Proof.
  induction v as [| b | z | s | items IH | members IH] using value_nested_ind;
    cbn [size JSON_stringify].
  - cbn. lia.
  - destruct b; cbn; lia.
  - destruct (number_head z "") as (c & t & Heq & _). rewrite string_app_nil_r in Heq.
    rewrite Heq. cbn. lia.
  - unfold quote. cbn. lia.
  - pose proof (join_length_bound JSON_stringify size items IH) as Hb.
    rewrite !string_length_app. cbn [String.length]. lia.
  - pose proof (join_length_bound
                  (fun kv => quote (fst kv) ++ ":" ++ JSON_stringify (snd kv))
                  (fun kv => size (snd kv)) members) as Hb.
    rewrite !string_length_app. cbn [String.length].
    cut (fold_right (fun kv n => S (size (snd kv) + n)) 0 members
         ≤ String.length
             (join "," (map (fun kv => quote (fst kv) ++ ":" ++ JSON_stringify (snd kv))
                            members)) + 1)%nat; [lia|].
    apply Hb. eapply Forall_impl; [exact IH|].
    intros [k v] Hv. cbn [fst snd] in *. rewrite !string_length_app. lia.
Qed.

(** [JSON.parse(JSON.stringify(v))] is [v]. *)
Lemma JSON_parse_stringify v : JSON_parse (JSON_stringify v) = Some v.
Proof.
  unfold JSON_parse.
  rewrite <- (string_app_nil_r (JSON_stringify v)) at 2.
  rewrite parse_stringify; [reflexivity | | reflexivity].
  pose proof (size_le_length v). lia.
Qed.

End JsonRoundTrip.

(** * Properties of useLocalStorage *)

Section UseLocalStorageRoundTrip.
Import Json UseLocalStorage.

Lemma stringify_array_nonempty items :
  ∃ text, JSON_stringify (JArray items) = String "[" text.
Proof. cbn [JSON_stringify]. rewrite string_app_cons. eauto. Qed.

Lemma initialValue_stored initialState key (ls : Storage) v :
  ls !! key = Some (JSON_stringify (JArray v)) →
  initialValue initialState key ls = Some (JArray v).
Proof.
  intros Hget. unfold initialValue. rewrite Hget.
  destruct (stringify_array_nonempty v) as [text Htext]. rewrite Htext, <- Htext.
  apply JSON_parse_stringify.
Qed.

(** C8. For an array [v], the effect (also when it runs after [setValue])
    stores [JSON.stringify([...v])] under [key] and leaves the other keys
    alone; the lazy initializer run on that
    storage gives [v] back, and a new first render starts from [v] and
    stores the same text again.  In general the initializer gives the
    parsed item when a non-empty one is stored, and [initialState] when
    none is (or the empty string is). *)
Theorem useLocalStorage_round_trip
    (v : list value) (key : string) (initialState : value) (ls : Storage) :
  ∃ ls', persist key (JArray v) ls = Some ls' ∧
    setValue key (JArray v) ls = Some (JArray v, ls') ∧
    ls' !! key = Some (JSON_stringify (JArray v)) ∧
    (∀ other, other ≠ key → ls' !! other = ls !! other) ∧
    initialValue initialState key ls' = Some (JArray v) ∧
    mount initialState key ls' = Some (JArray v, ls') ∧
    (ls !! key = None ∨ ls !! key = Some "" →
     initialValue initialState key ls = Some initialState) ∧
    (∀ c text, ls !! key = Some (String c text) →
               initialValue initialState key ls = JSON_parse (String c text)).
Proof.
  exists (<[key := JSON_stringify (JArray v)]> ls).
  assert (Hget : (<[key := JSON_stringify (JArray v)]> ls) !! key
                 = Some (JSON_stringify (JArray v))) by apply lookup_insert_eq.
  pose proof (initialValue_stored initialState key _ v Hget) as Hinit.
  split; [reflexivity|]. split; [reflexivity|]. split; [exact Hget|]. split.
  { intros other Hne. apply lookup_insert_ne. congruence. }
  split; [exact Hinit|]. split.
  { unfold mount. rewrite Hinit. unfold persist. cbn [spread].
    rewrite insert_insert_eq. reflexivity. }
  split.
  - intros [Hnone|Hnone]; unfold initialValue; rewrite Hnone; reflexivity.
  - intros c text Hsome. unfold initialValue. rewrite Hsome. reflexivity.
Qed.

(** A watched list of one entry, stored and read back; the text stored for
    an array of numbers. *)
Example watched_round_trip :
  let entry := JObject [("imdbID", JString "tt0078748"); ("title", JString "Alien");
                        ("imdbRating", JNumber (mkNumber false 8 (Decimal.D5 Decimal.Nil)));
                        ("userRating", JNumber (integer 9));
                        ("runtime", JString "117")] in
  (persist "watched" (JArray [entry]) ∅) ≫= initialValue (JArray []) "watched"
  = Some (JArray [entry])
  ∧ (persist "ratings"
       (JArray [JNumber (mkNumber false 8 (Decimal.D5 Decimal.Nil));
                JArray [JNumber (integer (-2)); JNull; JBool true]]) ∅)
      ≫= (λ ls, ls !! "ratings")
    = Some "[8.5,[-2,null,true]]".
Proof. split; vm_compute; reflexivity. Qed.

End UseLocalStorageRoundTrip.

(** * Properties of the watched list *)

Section WatchedList.
Import App.
Local Open Scope Q_scope.

(** ** Rounding to binary64 *)

Lemma nearest_even_close (y : Q) :
  Qabs (inject_Z (nearest_even y) - y) <= 1 # 2.
Proof.
  unfold nearest_even.
  pose proof (Qfloor_le y) as Hlo. pose proof (Qlt_floor y) as Hhi.
  rewrite inject_Z_plus in Hhi. change (inject_Z 1) with 1 in Hhi.
  apply Qabs_Qle_condition.
  destruct (Qcompare_spec (y - inject_Z (Qfloor y)) (1 # 2)) as [Heq|Hlt|Hgt].
  - destruct (Z.even (Qfloor y)); rewrite ?inject_Z_plus;
      change (inject_Z 1) with 1; lra.
  - lra.
  - rewrite inject_Z_plus. change (inject_Z 1) with 1. lra.
Qed.

Lemma pow2_pos e : 0 < pow2 e.
Proof. apply Qpower_0_lt. reflexivity. Qed.

Lemma pow2_plus a b : pow2 (a + b) == pow2 a * pow2 b.
Proof. apply Qpower_plus. discriminate. Qed.

Lemma pow2_cancel e : pow2 (- e) * pow2 e == 1.
Proof. rewrite <- pow2_plus. replace (- e + e)%Z with 0%Z by lia. reflexivity. Qed.

Lemma pow2_move (a b : Q) (k : Z) : a * pow2 k <= b ↔ a <= b * pow2 (- k).
Proof.
  rewrite <- (Qmult_le_r a (b * pow2 (- k)) (pow2 k)) by apply pow2_pos.
  rewrite <- Qmult_assoc, pow2_cancel, Qmult_1_r. reflexivity.
Qed.

Lemma pow2_53 : pow2 53 == 2 * pow2 52.
Proof. reflexivity. Qed.

Lemma pow2_half e : pow2 (- (e + 1)) == pow2 (- e) * (1 # 2).
Proof.
  replace (- (e + 1))%Z with (- e + -1)%Z by lia. rewrite pow2_plus. reflexivity.
Qed.

(** With the exponent that [Z.log2] suggests, [|x|] scaled has at least
    53 binary digits. *)
Lemma scaled_above (x : Q) :
  ¬ x == 0 →
  pow2 52 <=
  Qabs x * pow2 (- (Z.log2 (Z.abs (Qnum x)) - Z.log2 (Zpos (Qden x)) - 53)).
Proof.
  intros Hx. destruct x as [n d]. cbn [Qnum Qden].
  assert (Ha : (0 < Z.abs n)%Z).
  { unfold Qeq in Hx. cbn in Hx. lia. }
  destruct (Z.log2_spec (Z.abs n) Ha) as [Hla _].
  destruct (Z.log2_spec (Zpos d) ltac:(lia)) as [_ Hlb].
  pose proof (Z.log2_nonneg (Z.abs n)) as H0a.
  pose proof (Z.log2_nonneg (Zpos d)) as H0b.
  rewrite <- Zabs_Qabs.
  set (a := Z.abs n) in *. set (la := Z.log2 a) in *. set (lb := Z.log2 (Zpos d)) in *.
  apply (proj1 (pow2_move (pow2 52) (a # d) (la - lb - 53))).
  rewrite <- pow2_plus.
  replace (52 + (la - lb - 53))%Z with (la + - (lb + 1))%Z by lia.
  rewrite pow2_plus.
  apply (proj2 (pow2_move (pow2 la) (a # d) (- (lb + 1)))).
  rewrite Z.opp_involutive.
  unfold pow2. change 2 with (inject_Z 2). rewrite <- !Zpower_Qpower by lia.
  unfold Qle, Qmult, inject_Z. cbn [Qnum Qden].
  rewrite !Z.mul_1_r. rewrite Pos.mul_1_r.
  apply Z.le_trans with (a * Zpos d)%Z.
  - apply Z.mul_le_mono_nonneg_r; lia.
  - apply Z.mul_le_mono_nonneg_l; lia.
Qed.

(** The last digit of the values next to [x] weighs at most [|x| / 2^52],
    or [2^-1074] among the subnormal numbers. *)
Lemma ulp_bound (x : Q) :
  ¬ x == 0 → pow2 (ulp_exponent x) <= Qabs x * pow2 (-52) + pow2 (-1074).
Proof.
  intros Hx. unfold ulp_exponent. pose proof (scaled_above x Hx) as H0.
  set (e0 := (Z.log2 (Z.abs (Qnum x)) - Z.log2 (Zpos (Qden x)) - 53)%Z) in *.
  set (e1 := if Qle_bool (pow2 53) (Qabs x * pow2 (- e0)) then (e0 + 1)%Z else e0).
  assert (H1 : pow2 52 <= Qabs x * pow2 (- e1)).
  { subst e1. destruct (Qle_bool (pow2 53) (Qabs x * pow2 (- e0))) eqn:Hc; [|exact H0].
    apply Qle_bool_iff in Hc. rewrite pow2_half, pow2_53 in *.
    set (t := Qabs x * pow2 (- e0)) in *. rewrite Qmult_assoc. fold t. lra. }
  pose proof (Qabs_nonneg x) as Hnn. pose proof (pow2_pos (-52)) as H52.
  pose proof (pow2_pos (-1074)) as Hmin.
  assert (Hprod : 0 <= Qabs x * pow2 (-52)).
  { apply Qmult_le_0_compat; [exact Hnn | apply Qlt_le_weak, H52]. }
  destruct (Z.max_spec e1 (-1074)) as [[_ ->]|[_ ->]]; [lra|].
  apply pow2_move in H1. rewrite Qmult_comm in H1. apply pow2_move in H1.
  change (Z.opp 52) with (-52)%Z in H1. lra.
Qed.

Lemma unit_roundoff_double : pow2 (-52) == 2 * unit_roundoff.
Proof. reflexivity. Qed.

Lemma half_least_double : pow2 (-1074) == 2 * half_least.
Proof.
  unfold half_least. change (-1074)%Z with (1 + -1075)%Z. rewrite pow2_plus.
  reflexivity.
Qed.

(** What is in range is rounded to a finite number, off by at most the
    relative error [unit_roundoff] plus [half_least]. *)
Lemma round64_spec (x : Q) :
  Qabs x * (1 + unit_roundoff) + half_least < pow2 1024 →
  ∃ r, round64 x = Num r ∧ Qabs (r - x) <= unit_roundoff * Qabs x + half_least.
Proof.
  intros Hsmall. unfold round64.
  set (e := ulp_exponent x).
  set (m := nearest_even (x * pow2 (- e))).
  pose proof (nearest_even_close (x * pow2 (- e))) as Hm. fold m in Hm.
  pose proof (pow2_pos e) as He.
  pose proof (pow2_pos (-1075)) as Heta. fold half_least in Heta.
  pose proof (pow2_pos (-53)) as Hu. fold unit_roundoff in Hu.
  pose proof (Qabs_nonneg x) as Hnn.
  assert (Hdiff : inject_Z m * pow2 e - x == (inject_Z m - x * pow2 (- e)) * pow2 e).
  { transitivity (inject_Z m * pow2 e - x * (pow2 (- e) * pow2 e));
      [rewrite pow2_cancel; ring | ring]. }
  assert (Herr : Qabs (inject_Z m * pow2 e - x)
                 <= unit_roundoff * Qabs x + half_least).
  { rewrite Hdiff, Qabs_Qmult, (Qabs_pos (pow2 e)) by (apply Qlt_le_weak, He).
    destruct (Qeq_dec x 0) as [H0|Hx].
    - assert (Hm0 : m = 0%Z).
      { rewrite H0, Qmult_0_l in Hm. apply Qabs_Qle_condition in Hm.
        destruct Hm as [Hlo Hhi]. unfold Qle, Qminus, Qplus, Qopp, inject_Z in Hlo, Hhi.
        cbn in Hlo, Hhi. lia. }
      rewrite Hm0, H0, Qmult_0_l. change (Qabs (inject_Z 0 - 0)) with 0.
      change (Qabs 0) with 0. lra.
    - pose proof (ulp_bound x Hx) as Hulp. fold e in Hulp.
      rewrite unit_roundoff_double, half_least_double in Hulp.
      assert (Qabs (inject_Z m - x * pow2 (- e)) * pow2 e <= (1 # 2) * pow2 e).
      { apply Qmult_le_compat_r; [exact Hm | apply Qlt_le_weak, He]. }
      nra. }
  assert (Hr : Qabs (inject_Z m * pow2 e) < pow2 1024).
  { assert (Hsplit : inject_Z m * pow2 e == x + (inject_Z m * pow2 e - x)) by ring.
    rewrite Hsplit. eapply Qle_lt_trans; [apply Qabs_triangle|]. nra. }
  destruct (Qle_bool (pow2 1024) (Qabs (inject_Z m * pow2 e))) eqn:Hc.
  - apply Qle_bool_iff in Hc. exfalso. apply (Qlt_not_le _ _ Hr Hc).
  - eexists. split; [reflexivity|]. rewrite Qred_correct. exact Herr.
Qed.

(** ** The error of the loop of [average] *)

Ltac literals :=
  let v := eval vm_compute in unit_roundoff in change unit_roundoff with v in *;
  let w := eval vm_compute in half_least in change half_least with w in *;
  let p := eval vm_compute in (pow2 1024) in change (pow2 1024) with p in *;
  let q := eval vm_compute in (pow2 1023) in change (pow2 1023) with q in *.

Lemma div_by_length (x : Q) (n : nat) :
  div (Num x) (of_nat (S n)) = round64 (x / inject_Z (Z.of_nat (S n))).
Proof.
  unfold div, of_nat.
  destruct (Qeq_bool (inject_Z (Z.of_nat (S n))) 0) eqn:E; [|reflexivity].
  apply Qeq_bool_eq in E. unfold Qeq in E. cbn in E. lia.
Qed.

Lemma total_cons x xs : total (x :: xs) = x + total xs.
Proof. reflexivity. Qed.

Lemma magnitude_cons x xs : magnitude (x :: xs) = Qabs x + magnitude xs.
Proof. reflexivity. Qed.

Lemma magnitude_nonneg xs : 0 <= magnitude xs.
Proof.
  induction xs as [|x xs IH]; [unfold magnitude; cbn; lra|].
  rewrite magnitude_cons. pose proof (Qabs_nonneg x). lra.
Qed.

Lemma magnitude_le (bound : Q) (xs : list Q) :
  Forall (fun x => Qabs x <= bound) xs →
  magnitude xs <= inject_Z (Z.of_nat (length xs)) * bound.
Proof.
  induction 1 as [|x xs Hx _ IH].
  - change (magnitude []) with 0.
    change (inject_Z (Z.of_nat (@length Q []))) with 0. lra.
  - rewrite magnitude_cons. cbn [length].
    rewrite Nat2Z.inj_succ, <- Z.add_1_r, inject_Z_plus.
    change (inject_Z 1) with 1. lra.
Qed.

(** One turn of the loop, on numbers: with [k] items added so far, [t]
    their exact sum of quotients and [s] the accumulator, the sum to be
    rounded is in range, and rounding it adds one share to the error. *)
Lemma step_fits (A kq a t s q : Q) :
  0 <= A → A <= pow2 1023 →
  0 <= kq → kq + 1 <= inject_Z (2 ^ 32) →
  Qabs a <= A → Qabs (t + a) <= A →
  Qabs (s - t) <= kq * (3 * (unit_roundoff * A + half_least)) →
  Qabs (q - a) <= unit_roundoff * Qabs a + half_least →
  Qabs (s + q) * (1 + unit_roundoff) + half_least < pow2 1024.
Proof.
  intros HA HB Hk Hn Ha Hta Hs Hq.
  assert (HkA : kq * A <= inject_Z (2 ^ 32) * A).
  { apply Qmult_le_compat_r; [|exact HA]. lra. }
  assert (HkA0 : 0 <= kq * A) by (apply Qmult_le_0_compat; assumption).
  pose proof (Qabs_nonneg a) as Ha0.
  apply Qabs_Qle_condition in Hta, Hs, Hq.
  change (inject_Z (2 ^ 32)) with 4294967296 in *.
  assert (Hsq : Qabs (s + q)
                <= A + kq * (3 * (unit_roundoff * A + half_least))
                   + (unit_roundoff * A + half_least)).
  { apply Qabs_Qle_condition. literals. lra. }
  literals. lra.
Qed.

Lemma step_error (A kq a t s q s' : Q) :
  0 <= A → A <= pow2 1023 →
  0 <= kq → kq + 1 <= inject_Z (2 ^ 32) →
  Qabs a <= A → Qabs (t + a) <= A →
  Qabs (s - t) <= kq * (3 * (unit_roundoff * A + half_least)) →
  Qabs (q - a) <= unit_roundoff * Qabs a + half_least →
  Qabs (s' - (s + q)) <= unit_roundoff * Qabs (s + q) + half_least →
  Qabs (s' - (t + a)) <= (kq + 1) * (3 * (unit_roundoff * A + half_least)).
Proof.
  intros HA HB Hk Hn Ha Hta Hs Hq Hs'.
  assert (HkA : kq * A <= inject_Z (2 ^ 32) * A).
  { apply Qmult_le_compat_r; [|exact HA]. lra. }
  assert (HkA0 : 0 <= kq * A) by (apply Qmult_le_0_compat; assumption).
  pose proof (Qabs_nonneg a) as Ha0.
  apply Qabs_Qle_condition in Hta, Hs, Hq.
  change (inject_Z (2 ^ 32)) with 4294967296 in *.
  assert (Hsq : Qabs (s + q)
                <= A + kq * (3 * (unit_roundoff * A + half_least))
                   + (unit_roundoff * A + half_least)).
  { apply Qabs_Qle_condition. literals. lra. }
  apply Qabs_Qle_condition in Hs'. apply Qabs_Qle_condition. literals. lra.
Qed.

(** The loop from any point on: [k] items done, [rest] to do. *)
Lemma reduce_error (xs : list Q) (n : nat) (A : Q) :
  length xs = S n →
  (Z.of_nat (S n) < 2 ^ 32)%Z →
  0 <= A → A <= pow2 1023 →
  ∀ (rest : list Q) (k i : nat) (s t : Q),
    (k + length rest <= S n)%nat →
    Qabs t + magnitude rest / inject_Z (Z.of_nat (S n)) <= A →
    Qabs (s - t) <= inject_Z (Z.of_nat k) * (3 * (unit_roundoff * A + half_least)) →
    ∃ r,
      reduce_from (fun acc cur (_ : nat) (arr : list number) =>
                     add acc (div cur (of_nat (length arr))))
        (map Num xs) i (map Num rest) (Num s) = Num r ∧
      Qabs (r - (t + total rest / inject_Z (Z.of_nat (S n))))
      <= inject_Z (Z.of_nat (k + length rest))
         * (3 * (unit_roundoff * A + half_least)).
Proof.
  intros Hlen Hn HA HB.
  set (N := inject_Z (Z.of_nat (S n))).
  assert (HN : 0 < N). { unfold N, Qlt. cbn. lia. }
  assert (HNinv : 0 < / N) by (apply Qinv_lt_0_compat, HN).
  induction rest as [|x rest IH]; intros k i s t Hk Hbound Hs.
  - exists s. split; [reflexivity|]. cbn [length total fold_right].
    rewrite Nat.add_0_r.
    assert (Heq : s - (t + 0 / N) == s - t) by (unfold Qdiv; ring).
    rewrite Heq. exact Hs.
  - cbn [map reduce_from]. rewrite length_map, Hlen, div_by_length.
    fold N. set (a := x / N).
    assert (Habs : Qabs a == Qabs x / N).
    { unfold a, Qdiv. rewrite Qabs_Qmult. rewrite (Qabs_pos (/ N)) by lra. reflexivity. }
    pose proof (magnitude_nonneg rest) as Hmag. pose proof (Qabs_nonneg t) as Ht0.
    pose proof (Qabs_nonneg x) as Hx0.
    assert (Hmag' : 0 <= magnitude rest / N).
    { unfold Qdiv. apply Qmult_le_0_compat; lra. }
    rewrite magnitude_cons in Hbound.
    assert (Hsplit : (Qabs x + magnitude rest) / N == Qabs x / N + magnitude rest / N)
      by (unfold Qdiv; ring).
    rewrite Hsplit, <- Habs in Hbound.
    pose proof (Qabs_nonneg a) as Ha0.
    assert (Ha : Qabs a <= A) by lra.
    assert (Hta : Qabs (t + a) <= A).
    { eapply Qle_trans; [apply Qabs_triangle|]. lra. }
    assert (Hkq : 0 <= inject_Z (Z.of_nat k)).
    { unfold Qle. cbn. lia. }
    assert (Hkn : inject_Z (Z.of_nat k) + 1 <= inject_Z (2 ^ 32)).
    { change 1 with (inject_Z 1). rewrite <- inject_Z_plus, <- Zle_Qle.
      cbn [length] in Hk. lia. }
    destruct (round64_spec a) as (q & Hq & Hqerr).
    { literals. lra. }
    rewrite Hq.
    pose proof (step_fits A _ a t s q HA HB Hkq Hkn Ha Hta Hs Hqerr) as Hfits.
    destruct (round64_spec (s + q) Hfits) as (s' & Hs' & Hs'err).
    cbn [add]. rewrite Hs'.
    pose proof (step_error A _ a t s q s' HA HB Hkq Hkn Ha Hta Hs Hqerr Hs'err) as Hnext.
    destruct (IH (S k) (S i) s' (t + a)) as (r & Hr & Hrerr).
    + cbn [length] in Hk. lia.
    + assert (Qabs (t + a) <= Qabs t + Qabs a) by apply Qabs_triangle. lra.
    + rewrite Nat2Z.inj_succ, <- Z.add_1_r, inject_Z_plus. exact Hnext.
    + exists r. split; [exact Hr|]. cbn [length]. rewrite Nat.add_succ_r.
      rewrite total_cons.
      assert (Heq : r - (t + (x + total rest) / N) == r - (t + a + total rest / N))
        by (unfold a, Qdiv; ring).
      rewrite Heq. exact Hrerr.
Qed.

(** [average] of a non-empty array whose numbers are finite and not in the
    last binade is finite and close to the exact mean. *)
Lemma average_error (x : Q) (xs : list Q) :
  (Z.of_nat (length (x :: xs)) < 2 ^ 32)%Z →
  Forall (fun y => Qabs y <= pow2 1023) (x :: xs) →
  ∃ r, average (map Num (x :: xs)) = Num r ∧
       Qabs (r - mean (x :: xs))
       <= 3 * unit_roundoff * magnitude (x :: xs)
          + 3 * inject_Z (Z.of_nat (length (x :: xs))) * half_least.
Proof.
  intros Hn Hall. set (arr := x :: xs) in *.
  set (N := inject_Z (Z.of_nat (length arr))).
  assert (HN : 0 < N). { unfold N, Qlt. cbn. lia. }
  pose proof (magnitude_nonneg arr) as Hmag.
  pose proof (magnitude_le _ _ Hall) as Hle. fold N in Hle.
  assert (HA0 : 0 <= magnitude arr / N).
  { unfold Qdiv. apply Qmult_le_0_compat; [exact Hmag|].
    apply Qlt_le_weak, Qinv_lt_0_compat, HN. }
  assert (HA1 : magnitude arr / N <= pow2 1023).
  { apply Qle_shift_div_r; [exact HN|]. rewrite Qmult_comm. exact Hle. }
  destruct (reduce_error arr (length xs) (magnitude arr / N) eq_refl Hn HA0 HA1
              arr 0%nat 0%nat 0 0) as (r & Hr & Herr).
  - unfold arr. cbn [length]. lia.
  - change (Qabs 0) with 0. change (inject_Z (Z.of_nat (S (length xs)))) with N.
    rewrite Qplus_0_l. apply Qle_refl.
  - change (Qabs (0 - 0)) with 0. change (inject_Z (Z.of_nat 0)) with 0.
    rewrite Qmult_0_l. apply Qle_refl.
  - exists r. split; [exact Hr|]. unfold mean.
    change (inject_Z (Z.of_nat (S (length xs)))) with N in Herr.
    change (inject_Z (Z.of_nat (0 + length arr))) with N in Herr.
    change (inject_Z (Z.of_nat (length arr))) with N.
    assert (Heq : r - (0 + total arr / N) == r - total arr / N) by ring.
    rewrite Heq in Herr. eapply Qle_trans; [exact Herr|].
    assert (Hfield : N * (3 * (unit_roundoff * (magnitude arr / N) + half_least))
                     == 3 * unit_roundoff * magnitude arr + 3 * N * half_least).
    { field. intros H0. rewrite H0 in HN. apply (Qlt_irrefl 0 HN). }
    rewrite Hfield. apply Qle_refl.
Qed.

(** C9, as stated, fails: six 7s have the sum 42 and 42 / 6 is 7, while
    [average] adds six times the rounded quotient 7 / 6 and returns
    7.000000000000001, the number after 7. *)
Lemma average_of_six_sevens :
  average (map Num [7; 7; 7; 7; 7; 7]) = Num (7881299347898369 # 1125899906842624) ∧
  div (sum (map Num [7; 7; 7; 7; 7; 7])) (of_nat 6) = Num 7 ∧
  mean [7; 7; 7; 7; 7; 7] == 7 ∧
  ¬ (7881299347898369 # 1125899906842624) == 7.
Proof.
  split; [vm_compute; reflexivity|]. split; [vm_compute; reflexivity|].
  split; [reflexivity|]. intros H. vm_compute in H. discriminate H.
Qed.

(** C9 (amended). [average] of the empty array is 0: [reduce] returns its
    initial value without calling the callback, so nothing is divided by
    the zero length, and the three averages of [WatchedSummary] on an empty
    watched list are the number 0.  [average] of a non-empty array of fewer
    than 2^32 finite numbers of magnitude at most 2^1023 is a finite number
    that differs from their exact sum divided by their number by at most
    3 * 2^-53 times the sum of their magnitudes, plus 3 * 2^-1075 for each
    of them. *)
Theorem average_is_mean :
  average [] = Num 0 ∧
  (∀ (x : Q) (xs : list Q),
     (Z.of_nat (length (x :: xs)) < 2 ^ 32)%Z →
     Forall (fun y => Qabs y <= pow2 1023) (x :: xs) →
     ∃ r, average (map Num (x :: xs)) = Num r ∧
          Qabs (r - mean (x :: xs))
          <= 3 * unit_roundoff * magnitude (x :: xs)
             + 3 * inject_Z (Z.of_nat (length (x :: xs))) * half_least) ∧
  WatchedSummary [] =
    {| count := 0; avgImdbRating := Num 0; avgUserRating := Num 0; avgRuntime := Num 0 |}.
Proof.
  split; [reflexivity|]. split; [|reflexivity]. exact average_error.
Qed.

(** Three ratings. *)
Lemma average_is_mean_witness :
  ∃ r, average (map Num [8.5; 7.2; 9]) = Num r ∧
       Qabs (r - mean [8.5; 7.2; 9])
       <= 3 * unit_roundoff * magnitude [8.5; 7.2; 9]
          + 3 * inject_Z (Z.of_nat 3) * half_least.
Proof.
  apply (proj1 (proj2 average_is_mean) 8.5 [7.2; 9]).
  - vm_compute. reflexivity.
  - repeat (apply List.Forall_cons; [vm_compute; discriminate|]).
    apply List.Forall_nil.
Defined.

(** The example of the documentation: [average([1, 2, 3, 4, 5])] is 3; and
    two averages that are not the mean. *)
Example average_1_to_5 :
  average (map Num [1; 2; 3; 4; 5]) = Num 3 ∧
  average (map Num [1; 1; 1; 1; 1; 1]) = Num (9007199254740991 # 9007199254740992) ∧
  add (round64 (1 # 10)) (round64 (2 # 10)) ≠ round64 (3 # 10).
Proof.
  split; [vm_compute; reflexivity|]. split; [vm_compute; reflexivity|].
  vm_compute. discriminate.
Qed.

Local Close Scope Q_scope.

Lemma handleDeleteWatched_app id (l1 l2 : list WatchedMovie) :
  handleDeleteWatched id (l1 ++ l2)%list
  = (handleDeleteWatched id l1 ++ handleDeleteWatched id l2)%list.
Proof. apply List.filter_app. Qed.

Lemma keeps_iff id (movie : WatchedMovie) :
  negb (String.eqb (imdbID movie) id) = true ↔ imdbID movie ≠ id.
Proof. rewrite negb_true_iff. apply String.eqb_neq. Qed.

(** C10. [handleDeleteWatched(id)] keeps exactly the entries whose
    [imdbID] differs from [id]: an entry is in the new list if and only if
    it was in the old one with another [imdbID]; the new list is a sublist
    of the old one, so order is preserved and entries are unchanged; every
    entry with another [imdbID] stays between what is kept before it and
    what is kept after it, and an entry with that [imdbID] is dropped; a
    list without that [imdbID] is left as it is. *)
Theorem handleDeleteWatched_keeps_others (id : string) (watched : list WatchedMovie) :
  (∀ movie, movie ∈ handleDeleteWatched id watched ↔
            movie ∈ watched ∧ imdbID movie ≠ id) ∧
  sublist (handleDeleteWatched id watched) watched ∧
  (∀ before movie after,
     watched = (before ++ movie :: after)%list →
     handleDeleteWatched id watched
     = (handleDeleteWatched id before ++
        (if String.eqb (imdbID movie) id then [] else [movie]) ++
        handleDeleteWatched id after)%list) ∧
  (Forall (fun movie => imdbID movie ≠ id) watched →
   handleDeleteWatched id watched = watched) ∧
  (length (handleDeleteWatched id watched) <= length watched)%nat.
Proof.
  split; [|split; [|split; [|split]]].
  - intros movie. unfold handleDeleteWatched.
    rewrite !list_elem_of_In, List.filter_In, keeps_iff. reflexivity.
  - induction watched as [|movie watched IH]; [constructor|].
    cbn [handleDeleteWatched List.filter].
    destruct (negb _); [apply sublist_skip | apply sublist_cons]; exact IH.
  - intros before movie after ->. rewrite handleDeleteWatched_app. f_equal.
    cbn [handleDeleteWatched List.filter].
    destruct (String.eqb (imdbID movie) id); reflexivity.
  - induction 1 as [|movie watched Hmovie _ IH]; [reflexivity|].
    cbn [handleDeleteWatched List.filter].
    apply keeps_iff in Hmovie. rewrite Hmovie. f_equal. exact IH.
  - apply List.filter_length_le.
Qed.

End WatchedList.

(** * More on useMovies: what holds in every state the hook can reach *)

Section UseMoviesReachable.
Import UseMovies.

(** Controllers are numbered below [next]. *)
Lemma step_ids_below_next w ev w' :
  step w ev = Some w' →
  (∀ c, is_Some (pending w !! c) ∨ c ∈ aborted w ∨ cleanup w = Some c → c < next w) →
  (∀ c, is_Some (pending w' !! c) ∨ c ∈ aborted w' ∨ cleanup w' = Some c → c < next w').
Proof.
  intros Hstep Hinv.
  assert (Hclean : ∀ c, is_Some (pending (run_cleanup w) !! c) ∨
                        c ∈ aborted (run_cleanup w) → c < next w).
  { intros c. unfold run_cleanup. destruct (cleanup w) as [c0|] eqn:Hc0; cbn.
    - intros [Hp|Hab]; [auto|]. apply elem_of_union in Hab as [Hab|Hab]; [|auto].
      apply elem_of_singleton in Hab as ->. auto.
    - intros [Hp|Hab]; auto. }
  destruct (run_cleanup_fields w) as (_ & _ & _ & Hnext & _).
  destruct ev as [q| |c0 o]; cbn [step] in Hstep.
  - destruct (mounted w); [|discriminate]. injection Hstep as <-.
    unfold useMovies_effect. destruct (String.length q <? 3)%nat; cbn; rewrite Hnext.
    + intros c [Hp|[Hab|Hc]]; [| |discriminate]; apply Nat.lt_lt_succ_r; auto.
    + intros c [Hp|[Hab|Hc]].
      * destruct (decide (next w = c)) as [<-|Hne]; [lia|].
        rewrite lookup_insert_ne in Hp by assumption. apply Nat.lt_lt_succ_r. auto.
      * apply Nat.lt_lt_succ_r. auto.
      * injection Hc as <-. lia.
  - destruct (mounted w); [|discriminate]. injection Hstep as <-. cbn. rewrite Hnext.
    intros c [Hp|[Hab|Hc]]; [auto | auto | discriminate].
  - destruct (pending w !! c0) eqn:Hc0; [|discriminate]. injection Hstep as <-. cbn.
    intros c [Hp|[Hab|Hc]]; [|auto|auto].
    destruct (decide (c0 = c)) as [->|Hne].
    + rewrite lookup_delete_eq in Hp. destruct Hp as [? [=]].
    + rewrite lookup_delete_ne in Hp by assumption. auto.
Qed.

Lemma reachable_ids_below_next w :
  reachable w →
  ∀ c, is_Some (pending w !! c) ∨ c ∈ aborted w ∨ cleanup w = Some c → c < next w.
Proof.
  intros [tr Hrun].
  assert (Hinit : ∀ c, is_Some (pending init !! c) ∨ c ∈ aborted init ∨
                       cleanup init = Some c → c < next init).
  { intros c [[? Hp]|[Hab|Hc]]; cbn in *;
      [rewrite lookup_empty in Hp; discriminate | set_solver | discriminate]. }
  revert Hrun Hinit. generalize init as w0.
  induction tr as [|ev tr IH]; intros w0; cbn [run].
  - intros [= ->] H. exact H.
  - destruct (step w0 ev) as [w1|] eqn:Hstep; [|discriminate].
    intros Hrun Hinv. apply (IH w1 Hrun). eapply step_ids_below_next; eassumption.
Qed.

(** While the spinner is on, [error] is the empty string. *)
Lemma reachable_loading_no_error w :
  reachable w → isLoading (hook w) = true → error (hook w) = Some "".
Proof.
  intros [tr Hrun].
  assert (Hinit : isLoading (hook init) = true → error (hook init) = Some "")
    by discriminate.
  revert Hrun Hinit. generalize init as w0.
  induction tr as [|ev tr IH]; intros w0; cbn [run].
  - intros [= ->] H. exact H.
  - destruct (step w0 ev) as [w1|] eqn:Hstep; [|discriminate].
    intros Hrun Hinv. apply (IH w1 Hrun).
    destruct (run_cleanup_fields w0) as (Hhook & _).
    destruct ev as [q| |c o]; cbn [step] in Hstep.
    + destruct (mounted w0); [|discriminate]. injection Hstep as <-.
      unfold useMovies_effect. destruct (String.length q <? 3)%nat; reflexivity.
    + destruct (mounted w0); [|discriminate]. injection Hstep as <-. cbn.
      rewrite Hhook. exact Hinv.
    + destruct (pending w0 !! c); [|discriminate]. injection Hstep as <-.
      cbn. discriminate.
Qed.

(** X1. A qualifying query followed by the completion of its own lookup
    always ends with the spinner off.  A parsed answer other than "not
    found" puts its items in [movies] and leaves [error] empty, so the
    message of an earlier failure does not survive; anything thrown leaves
    [movies] as it was and puts the message in [error], unless it is an
    [AbortError], which leaves [error] empty. *)
Theorem lookup_completion (w : World) (q : string) (o : FetchOutcome) :
  mounted w = true →
  (3 <= String.length q)%nat →
  ∃ w', run w [QueryChange q; Settle (next w) o] = Some w' ∧
        isLoading (hook w') = false ∧
        match fetchMovies_try o with
        | inr items => movies (hook w') = items ∧ error (hook w') = Some ""
        | inl e =>
            movies (hook w') = movies (hook w) ∧
            error (hook w') =
              Some (if String.eqb (name e) "AbortError" then "" else message e)
        end.
Proof.
  intros Hm Hq. destruct (lookup_run w q o Hm Hq) as (w' & Hrun & Hhook).
  exists w'. split; [exact Hrun|]. rewrite Hhook. split; [reflexivity|].
  unfold fetchMovies_resume.
  destruct (fetchMovies_try o) as [e|items]; [|split; reflexivity].
  destruct (String.eqb (name e) "AbortError"); split; reflexivity.
Qed.

Lemma lookup_completion_witness :
  ∃ w', run init [QueryChange "alien"; Settle 0 (found [alien])] = Some w' ∧
        isLoading (hook w') = false ∧
        movies (hook w') = [alien] ∧ error (hook w') = Some "".
Proof.
  assert (Hq : (3 <= String.length "alien")%nat) by (cbn; lia).
  exact (lookup_completion init "alien" (found [alien]) eq_refl Hq).
Defined.

(** X2. In every state the hook reaches, [App] shows exactly one thing in
    the results box: the loader while [isLoading] is on, else the error
    message when [error] is a non-empty string, else the list of [movies]. *)
Theorem results_box_shows_one_thing (w : World) :
  reachable w →
  render_results (hook w) =
    [if isLoading (hook w) then Loader
     else match error (hook w) with
          | Some (String c m) => ErrorMessage (String c m)
          | _ => MovieList (movies (hook w))
          end].
Proof.
  intros Hreach. pose proof (reachable_loading_no_error w Hreach) as Hinv.
  unfold render_results. destruct (isLoading (hook w)).
  - rewrite (Hinv eq_refl). reflexivity.
  - destruct (error (hook w)) as [[|c m]|]; reflexivity.
Qed.

Lemma results_box_shows_one_thing_witness :
  ∃ w, run init [QueryChange "alien"; QueryChange "zzzz"; Settle 1 not_found] = Some w ∧
       render_results (hook w) = [ErrorMessage "Movie not found"].
Proof.
  eexists. split; [vm_compute; reflexivity|].
  match goal with
  | |- render_results (hook ?w) = _ => rewrite (results_box_shows_one_thing w)
  end; [reflexivity|].
  exists [QueryChange "alien"; QueryChange "zzzz"; Settle 1 not_found].
  vm_compute. reflexivity.
Defined.

(** X3. In every state the hook reaches at most one lookup in flight has a
    controller that was not aborted, and it is the one the current cleanup
    would abort; after the teardown there is none. *)
Theorem at_most_one_live_lookup (w : World) (c1 c2 : nat) :
  reachable w →
  is_Some (pending w !! c1) → c1 ∉ aborted w →
  is_Some (pending w !! c2) → c2 ∉ aborted w →
  c1 = c2 ∧ cleanup w = Some c1 ∧ mounted w = true.
Proof.
  intros Hreach [q1 H1] Hn1 [q2 H2] Hn2.
  destruct (reachable_invariants w Hreach) as [Hinv _].
  destruct (Hinv c1 q1 H1) as [Hc1|]; [|contradiction].
  destruct (Hinv c2 q2 H2) as [Hc2|]; [|contradiction].
  split; [congruence|]. split; [exact Hc1|].
  destruct Hreach as [tr Hrun]. clear - Hrun Hc1.
  assert (Hinit : mounted init = false → cleanup init = None) by reflexivity.
  revert Hrun Hinit. generalize init as w0.
  induction tr as [|ev tr IH]; intros w0; cbn [run].
  - intros [= ->] H. destruct (mounted w); [reflexivity|].
    rewrite H in Hc1 by reflexivity. discriminate.
  - destruct (step w0 ev) as [w1|] eqn:Hstep; [|discriminate].
    intros Hrun Hinv. apply (IH w1 Hrun).
    destruct ev as [q| |c o]; cbn [step] in Hstep.
    + destruct (mounted w0) eqn:Hm; [|discriminate]. injection Hstep as <-.
      destruct (run_cleanup_fields w0) as (_ & _ & _ & _ & Hm' & _).
      unfold useMovies_effect. destruct (String.length q <? 3)%nat; cbn;
        rewrite Hm', Hm; discriminate.
    + destruct (mounted w0); [|discriminate]. injection Hstep as <-. reflexivity.
    + destruct (pending w0 !! c); [|discriminate]. injection Hstep as <-. exact Hinv.
Qed.

Lemma at_most_one_live_lookup_witness :
  ∃ w, run init [QueryChange "ali"; QueryChange "alien"] = Some w ∧
       1 = 1 ∧ cleanup w = Some 1 ∧ mounted w = true.
Proof.
  eexists. split; [vm_compute; reflexivity|].
  apply (at_most_one_live_lookup _ 1 1).
  - exists [QueryChange "ali"; QueryChange "alien"]. vm_compute. reflexivity.
  - exists "alien". vm_compute. reflexivity.
  - apply (bool_decide_unpack _); vm_compute; exact I.
  - exists "alien". vm_compute. reflexivity.
  - apply (bool_decide_unpack _); vm_compute; exact I.
Defined.

(** X4. A query change in a reachable state aborts every lookup that was
    in flight and drops none of them.  A qualifying query adds exactly one
    lookup, under a controller that was never used before and is not
    aborted; a short query adds none. *)
Theorem query_change_supersedes (w : World) (q : string) :
  reachable w →
  mounted w = true →
  ∃ w', step w (QueryChange q) = Some w' ∧
        (∀ c, is_Some (pending w !! c) → is_Some (pending w' !! c) ∧ c ∈ aborted w') ∧
        (next w ∉ aborted w') ∧ pending w !! next w = None ∧
        pending w' = (if (String.length q <? 3)%nat then pending w
                      else <[next w := q]> (pending w)).
Proof.
  intros Hreach Hm. cbn [step]. rewrite Hm. eexists. split; [reflexivity|].
  destruct (reachable_invariants w Hreach) as [Hinv _].
  pose proof (reachable_ids_below_next w Hreach) as Hids.
  pose proof (run_cleanup_all_aborted w Hinv) as Hall.
  destruct (run_cleanup_fields w) as (_ & Hpend & _ & Hnext & _ & _).
  assert (Hfresh : pending w !! next w = None).
  { destruct (pending w !! next w) eqn:Hp; [|reflexivity].
    pose proof (Hids (next w) (or_introl (ex_intro _ _ Hp))). lia. }
  assert (Hnew : next w ∉ aborted (run_cleanup w)).
  { unfold run_cleanup. destruct (cleanup w) as [c0|] eqn:Hc0; cbn.
    - intros Hin. apply elem_of_union in Hin as [Hin|Hin].
      + apply elem_of_singleton in Hin.
        pose proof (Hids c0 (or_intror (or_intror eq_refl))). lia.
      + pose proof (Hids _ (or_intror (or_introl Hin))). lia.
    - intros Hin. pose proof (Hids _ (or_intror (or_introl Hin))). lia. }
  unfold useMovies_effect. rewrite Hnext.
  destruct (String.length q <? 3)%nat; cbn [pending aborted]; rewrite Hpend;
    (split; [|split; [exact Hnew|split; [exact Hfresh|reflexivity]]]).
  - intros c [qc Hc]. split; [eauto|]. apply (Hall c qc). rewrite Hpend. exact Hc.
  - intros c [qc Hc]. split.
    + rewrite lookup_insert_ne by congruence. eauto.
    + apply (Hall c qc). rewrite Hpend. exact Hc.
Qed.

Lemma query_change_supersedes_witness :
  ∃ w, run init [QueryChange "ali"] = Some w ∧
  ∃ w', step w (QueryChange "alien") = Some w' ∧
        (∀ c, is_Some (pending w !! c) → is_Some (pending w' !! c) ∧ c ∈ aborted w') ∧
        (next w ∉ aborted w') ∧ pending w !! next w = None ∧
        pending w' = (if (String.length "alien" <? 3)%nat then pending w
                      else <[next w := "alien"]> (pending w)).
Proof.
  eexists. split; [reflexivity|].
  apply (query_change_supersedes _ "alien"); [|reflexivity].
  exists [QueryChange "ali"]. reflexivity.
Defined.

(** X5. Whatever the transport does, once no lookup is in flight the
    spinner is off: every suspended [fetchMovies] call reaches its
    [finally] block, and only a call that is then in flight turns the
    spinner on. *)
Theorem spinner_off_when_nothing_in_flight (w : World) :
  reachable w → pending w = ∅ →
  isLoading (hook w) = false ∧ ∀ e, In e (render_results (hook w)) → e ≠ Loader.
Proof.
  intros Hreach Hnone. destruct (reachable_invariants w Hreach) as [_ Hload].
  assert (Hoff : isLoading (hook w) = false).
  { destruct (isLoading (hook w)) eqn:Hl; [|reflexivity].
    exfalso. apply (Hload Hl Hnone). }
  split; [exact Hoff|]. unfold render_results. rewrite Hoff. cbn.
  destruct (truthy (error (hook w))); cbn;
    destruct (error (hook w)) as [[|c m]|]; cbn; intros e He;
    repeat (destruct He as [<-|He]; [discriminate|]); contradiction.
Qed.

Lemma spinner_off_when_nothing_in_flight_witness :
  ∃ w, run init [QueryChange "alien"; QueryChange "al"; Settle 0 (found [alien])] = Some w ∧
       isLoading (hook w) = false ∧ ∀ e, In e (render_results (hook w)) → e ≠ Loader.
Proof.
  eexists. split; [vm_compute; reflexivity|].
  apply (spinner_off_when_nothing_in_flight _).
  - exists [QueryChange "alien"; QueryChange "al"; Settle 0 (found [alien])].
    vm_compute. reflexivity.
  - vm_compute. reflexivity.
Defined.

End UseMoviesReachable.

(** * More on useLocalStorage *)

Section UseLocalStorageMore.
Import Json UseLocalStorage StorageRuns.

(** X7. The effect spreads the state into an array before storing it.  An
    array state comes back as it was; a string state is stored as the array
    of its characters and comes back as that array, not as the string; for
    [null], a boolean, a number or an object the spread throws and nothing
    is stored. *)
Theorem only_arrays_survive_a_reload
    (key : string) (initialState v : value) (ls : Storage) :
  match v with
  | JArray items =>
      ∃ ls', persist key v ls = Some ls' ∧
             initialValue initialState key ls' = Some v
  | JString s =>
      ∃ ls', persist key v ls = Some ls' ∧
             initialValue initialState key ls' = Some (JArray (characters s)) ∧
             initialValue initialState key ls' ≠ Some v
  | _ => persist key v ls = None
  end.
Proof.
  destruct v as [| b | n | s | items | members]; try reflexivity.
  - eexists. split; [reflexivity|].
    assert (Hload : initialValue initialState key
                      (<[key:=JSON_stringify (JArray (characters s))]> ls)
                    = Some (JArray (characters s))).
    { apply initialValue_stored, lookup_insert_eq. }
    split; [exact Hload|]. unfold characters in *. rewrite Hload. discriminate.
  - eexists. split; [reflexivity|]. apply initialValue_stored, lookup_insert_eq.
Qed.

(** X8. On a first visit (nothing stored under [key]) the hook starts from
    the array [initialState] and stores it at once; every later first
    render, whatever [initialState] it is given, starts from the stored
    array and leaves the storage as it is. *)
Theorem first_visit_then_refresh
    (key : string) (items : list value) (ls : Storage) :
  ls !! key = None →
  ∃ ls', mount (JArray items) key ls = Some (JArray items, ls') ∧
         ls' !! key = Some (JSON_stringify (JArray items)) ∧
         ∀ other, mount other key ls' = Some (JArray items, ls').
Proof.
  intros Hnone. exists (<[key := JSON_stringify (JArray items)]> ls).
  split; [|split].
  - unfold mount, initialValue. rewrite Hnone. reflexivity.
  - apply lookup_insert_eq.
  - intros other. unfold mount.
    rewrite (initialValue_stored other key _ items) by apply lookup_insert_eq.
    unfold persist. cbn [spread]. rewrite insert_insert_eq. reflexivity.
Qed.

Lemma first_visit_then_refresh_witness :
  ∃ ls', mount (JArray []) "watched" ∅ = Some (JArray [], ls') ∧
         ls' !! "watched" = Some (JSON_stringify (JArray [])) ∧
         ∀ other, mount other "watched" ls' = Some (JArray [], ls').
Proof.
  apply (first_visit_then_refresh "watched" [] ∅). reflexivity.
Defined.

Lemma setValues_lookup updates : ∀ (ls ls' : Storage) (key : string),
  forallb (fun u => is_array (snd u)) updates = true →
  setValues updates ls = Some ls' →
  ls' !! key = match last_for key updates with
               | Some v => Some (JSON_stringify v)
               | None => ls !! key
               end.
Proof.
  induction updates as [|[k v] updates IH]; intros ls ls' key Harr Hrun.
  - injection Hrun as <-. reflexivity.
  - cbn [forallb snd] in Harr. apply andb_true_iff in Harr as [Hv Harr].
    destruct v as [| | | | items |]; try discriminate Hv.
    cbn [setValues persist spread] in Hrun.
    rewrite (IH _ _ key Harr Hrun). cbn [last_for].
    destruct (last_for key updates); [reflexivity|].
    destruct (String.eqb_spec k key) as [->|Hne].
    + apply lookup_insert_eq.
    + apply lookup_insert_ne. exact Hne.
Qed.

(** X9. After any sequence of [setValue] calls with arrays, made by hooks
    with any keys on one storage, a reload under [key] gives the array of
    the last call made under [key]; when there was none it gives what a
    reload gave before the calls. *)
Theorem reload_gives_last_value
    (updates : list (string * value)) (key : string) (initialState : value)
    (ls ls' : Storage) :
  forallb (fun u => is_array (snd u)) updates = true →
  setValues updates ls = Some ls' →
  initialValue initialState key ls' =
    match last_for key updates with
    | Some v => Some v
    | None => initialValue initialState key ls
    end.
Proof.
  intros Harr Hrun. pose proof (setValues_lookup updates ls ls' key Harr Hrun) as Hget.
  destruct (last_for key updates) as [v|] eqn:Hlast.
  - assert (Hv : is_array v = true).
    { clear - Harr Hlast. induction updates as [|[k u] updates IH]; [discriminate|].
      cbn [forallb snd] in Harr. apply andb_true_iff in Harr as [Hu Harr].
      cbn [last_for] in Hlast. destruct (last_for key updates) as [v'|].
      - injection Hlast as ->. auto.
      - destruct (String.eqb k key); [|discriminate]. injection Hlast as <-. exact Hu. }
    destruct v as [| | | | items |]; try discriminate Hv.
    apply initialValue_stored, Hget.
  - unfold initialValue. rewrite Hget. reflexivity.
Qed.

Lemma reload_gives_last_value_witness :
  ∃ ls', setValues [("watched", JArray [JNull]); ("seen", JArray []);
                    ("watched", JArray [JBool true])] ∅ = Some ls' ∧
         initialValue (JArray []) "watched" ls' = Some (JArray [JBool true]).
Proof.
  eexists. split; [reflexivity|].
  exact (reload_gives_last_value
           [("watched", JArray [JNull]); ("seen", JArray []);
            ("watched", JArray [JBool true])]
           "watched" (JArray []) ∅ _ eq_refl eq_refl).
Defined.

End UseLocalStorageMore.

(** * More on the watched list *)

Section WatchedListMore.
Import App MovieDetails AppHandlers.

Lemma isWatched_false id (watched : list WatchedMovie) :
  isWatched id watched = false ↔ Forall (fun movie => imdbID movie ≠ id) watched.
Proof.
  unfold isWatched. induction watched as [|movie watched IH]; cbn [map existsb].
  - split; [constructor | reflexivity].
  - rewrite orb_false_iff, IH, String.eqb_neq. split.
    + intros [Hne Hrest]. constructor; [congruence | exact Hrest].
    + intros Hall. inversion Hall; subst. split; [congruence | assumption].
Qed.

Lemma isWatched_true id (watched : list WatchedMovie) :
  isWatched id watched = true ↔ In id (map imdbID watched).
Proof.
  unfold isWatched. rewrite existsb_exists. split.
  - intros (x & Hin & Heq). apply String.eqb_eq in Heq. subst. exact Hin.
  - intros Hin. exists id. split; [exact Hin | apply String.eqb_refl].
Qed.

Lemma delete_absent id (watched : list WatchedMovie) :
  Forall (fun movie => imdbID movie ≠ id) watched →
  handleDeleteWatched id watched = watched.
Proof.
  induction 1 as [|movie watched Hmovie _ IH]; [reflexivity|].
  cbn [handleDeleteWatched List.filter].
  apply String.eqb_neq in Hmovie. rewrite Hmovie. cbn [negb]. f_equal. exact IH.
Qed.

Lemma delete_ids id (watched : list WatchedMovie) :
  map imdbID (handleDeleteWatched id watched)
  = List.filter (fun i => negb (String.eqb i id)) (map imdbID watched).
Proof.
  induction watched as [|movie watched IH]; [reflexivity|].
  cbn [handleDeleteWatched List.filter map].
  destruct (negb (String.eqb (imdbID movie) id)); cbn [map]; [f_equal|]; exact IH.
Qed.

Lemma NoDup_filter_ids (p : string → bool) (ids : list string) :
  NoDup ids → NoDup (List.filter p ids).
Proof.
  induction 1 as [|i ids Hnotin _ IH]; cbn [List.filter]; [constructor|].
  destruct (p i); [|exact IH]. constructor; [|exact IH].
  rewrite list_elem_of_In, List.filter_In. rewrite list_elem_of_In in Hnotin. tauto.
Qed.

(** X10. Adding a movie that is not yet in the watched list and deleting
    it again by its [imdbID] gives back the list as it was. *)
Theorem add_then_delete_restores (movie : WatchedMovie) (s : AppState) :
  isWatched (imdbID movie) (watched s) = false →
  deleteWatched (imdbID movie) (handleAddWatached movie s) = s.
Proof.
  intros Hfresh. destruct s as [sel l]. unfold deleteWatched, handleAddWatached.
  cbn [selected watched] in *. f_equal. unfold handleDeleteWatched.
  rewrite List.filter_app. cbn [List.filter]. rewrite String.eqb_refl. cbn [negb].
  rewrite app_nil_r. apply delete_absent, isWatched_false, Hfresh.
Qed.

Lemma add_then_delete_restores_witness :
  let movie := {| imdbID := "tt0078748"; title := "Alien"; year := "1979";
                  poster := "N/A"; imdbRating := Num 8.5; userRating := Num 9;
                  runtime := Num 117; countRatingDecisions := 1 |} in
  let s := {| selected := None; watched := [] |} in
  deleteWatched (imdbID movie) (handleAddWatached movie s) = s.
Proof.
  intros movie s. apply (add_then_delete_restores movie s). reflexivity.
Defined.

Section WithNumber.
Variable Number : string → number.

Lemma ui_step_distinct s ev s' :
  NoDup (map imdbID (watched s)) →
  ui_step Number s ev = Some s' →
  NoDup (map imdbID (watched s')).
Proof.
  intros Hnd. destruct ev as [id| |movie r count|id]; cbn [ui_step].
  - intros [= <-]. exact Hnd.
  - intros [= <-]. exact Hnd.
  - destruct (selected s) as [[|c i]|]; try discriminate.
    destruct (isWatched (String c i) (watched s)) eqn:Hw; cbn [negb andb];
      [discriminate|].
    destruct (0 <? r)%nat; [|discriminate].
    destruct movie as [movie|]; cbn [handleAdd]; intros [= <-]; [|exact Hnd].
    cbn [handleCloseMovie handleAddWatached watched]. rewrite map_app. cbn [map imdbID].
    apply NoDup_app. split; [exact Hnd|]. split; [|apply NoDup_singleton].
    intros x Hx Hx'. apply list_elem_of_In in Hx. apply list_elem_of_singleton in Hx'.
    subst x. apply isWatched_true in Hx. congruence.
  - destruct (selected s) as [[|c i]|]; try discriminate;
      (destruct (isWatched id (watched s)); [|discriminate]); intros [= <-];
      cbn [deleteWatched watched]; rewrite delete_ids; apply NoDup_filter_ids, Hnd.
Qed.

(** X11. Through the interface no movie gets into the watched list twice:
    "Add to list" is rendered only for a movie that is not in the list, so
    when the [imdbID]s of the list are distinct at the start (as in the
    empty list) they stay distinct whatever the user does. *)
Theorem watched_ids_stay_distinct (s s' : AppState) (evs : list UiEvent) :
  NoDup (map imdbID (watched s)) →
  ui_run Number s evs = Some s' →
  NoDup (map imdbID (watched s')).
Proof.
  revert s. induction evs as [|ev evs IH]; intros s Hnd; cbn [ui_run].
  - intros [= <-]. exact Hnd.
  - destruct (ui_step Number s ev) as [s1|] eqn:Hstep; [|discriminate].
    apply IH. eapply ui_step_distinct; eassumption.
Qed.

(** X13. "Add to list" can only be clicked for a selected movie that is
    not in the list, after a rating of at least 1 was given.  When the
    details have loaded, the details view closes, the list grows by one
    entry at its end, and the movie then counts as watched with the rating
    just given.  When they have not ([movie] is still [{}]), [handleAdd]
    throws: nothing is added and the details view stays open. *)
Theorem added_movie_is_watched
    (s s' : AppState) (movie : option Details) (r count : nat) :
  ui_step Number s (AddToList movie r count) = Some s' →
  ∃ id,
    selected s = Some id ∧
    (1 <= r)%nat ∧
    isWatched id (watched s) = false ∧
    match movie with
    | Some _ =>
        ∃ entry,
          selected s' = None ∧
          watched s' = (watched s ++ [entry])%list ∧
          imdbID entry = id ∧ countRatingDecisions entry = count ∧
          isWatched id (watched s') = true ∧
          watchedUserRating id (watched s') = Some (of_nat r)
    | None => s' = s
    end.
Proof.
  cbn [ui_step]. destruct (selected s) as [[|c i]|] eqn:Hsel; try discriminate.
  destruct (isWatched (String c i) (watched s)) eqn:Hw; cbn [negb andb];
    [discriminate|].
  destruct (Nat.ltb_spec 0 r) as [Hr|]; [|discriminate].
  destruct movie as [movie|]; cbn [handleAdd]; intros [= <-];
    exists (String c i); (split; [reflexivity|]); (split; [exact Hr|]);
    (split; [exact Hw|]); [|reflexivity].
  eexists. split; [reflexivity|]. split; [reflexivity|].
  split; [reflexivity|]. split; [reflexivity|].
  cbn [handleCloseMovie handleAddWatached watched]. split.
  - apply isWatched_true. rewrite map_app. apply in_or_app. right. left. reflexivity.
  - unfold watchedUserRating. apply isWatched_false in Hw.
    induction Hw as [|m l Hm _ IH]; cbn [app List.find].
    + cbn [imdbID]. rewrite String.eqb_refl. reflexivity.
    + apply String.eqb_neq in Hm. rewrite Hm. exact IH.
Qed.

End WithNumber.

Lemma watched_ids_stay_distinct_witness :
  ∃ s', ui_run (fun _ => NaN) {| selected := None; watched := [] |}
          [SelectMovie "tt0078748";
           AddToList None 7 1;
           AddToList (Some {| Title := "Alien"; Year := "1979"; Poster := "N/A";
                              Runtime := "117 min"; imdbRatingText := "8.5" |}) 9 2;
           DeleteWatched "tt0078748"] = Some s' ∧
        NoDup (map imdbID (watched s')).
Proof.
  eexists. split; [vm_compute; reflexivity|].
  apply (watched_ids_stay_distinct (fun _ => NaN)
           {| selected := None; watched := [] |} _
           [SelectMovie "tt0078748";
            AddToList None 7 1;
            AddToList (Some {| Title := "Alien"; Year := "1979"; Poster := "N/A";
                               Runtime := "117 min"; imdbRatingText := "8.5" |}) 9 2;
            DeleteWatched "tt0078748"]).
  - constructor.
  - vm_compute. reflexivity.
Defined.

Lemma added_movie_is_watched_witness :
  let s := {| selected := Some "tt0078748"; watched := [] |} in
  let alien := {| Title := "Alien"; Year := "1979"; Poster := "N/A";
                  Runtime := "117 min"; imdbRatingText := "8.5" |} in
  (∃ s' entry,
     ui_step (fun _ => NaN) s (AddToList (Some alien) 9 1) = Some s' ∧
     selected s' = None ∧ watched s' = [entry] ∧ imdbID entry = "tt0078748" ∧
     watchedUserRating "tt0078748" (watched s') = Some (of_nat 9)) ∧
  ui_step (fun _ => NaN) s (AddToList None 9 1) = Some s.
Proof.
  intros s alien. split.
  - destruct (ui_step (fun _ => NaN) s (AddToList (Some alien) 9 1))
      as [s'|] eqn:Hstep; [|discriminate].
    destruct (added_movie_is_watched (fun _ => NaN) s s' (Some alien) 9 1 Hstep)
      as (id & Hid & _ & _ & entry & Hsel & Hw & Hentry & _ & _ & Hrating).
    injection Hid as <-.
    exists s', entry. split; [reflexivity|]. repeat split; assumption.
  - destruct (ui_step (fun _ => NaN) s (AddToList None 9 1))
      as [s'|] eqn:Hstep; [|discriminate].
    destruct (added_movie_is_watched (fun _ => NaN) s s' None 9 1 Hstep)
      as (_ & _ & _ & _ & ->). reflexivity.
Defined.

(** X12. In a list with distinct [imdbID]s, deleting a movie that is in it
    removes exactly one entry, and the movie no longer counts as watched. *)
Theorem delete_removes_one_entry (id : string) (watched : list WatchedMovie) :
  NoDup (map imdbID watched) →
  isWatched id watched = true →
  length (handleDeleteWatched id watched) + 1 = length watched ∧
  isWatched id (handleDeleteWatched id watched) = false ∧
  watchedUserRating id (handleDeleteWatched id watched) = None.
Proof.
  intros Hnd Hin. split; [|split].
  - induction watched as [|movie watched IH]; [discriminate|].
    cbn [map] in Hnd. apply NoDup_cons in Hnd as [Hnotin Hnd].
    unfold handleDeleteWatched. cbn [List.filter length].
    fold (handleDeleteWatched id watched).
    destruct (String.eqb_spec (imdbID movie) id) as [Heq|Hne]; cbn [negb length].
    + rewrite delete_absent; [lia|]. apply isWatched_false.
      destruct (isWatched id watched) eqn:Hw; [|reflexivity].
      apply isWatched_true in Hw. rewrite list_elem_of_In in Hnotin. congruence.
    + rewrite <- IH; [lia | exact Hnd |].
      unfold isWatched in *. cbn [map existsb] in Hin.
      apply orb_true_iff in Hin as [Hin|Hin]; [|exact Hin].
      apply String.eqb_eq in Hin. congruence.
  - apply isWatched_false. unfold handleDeleteWatched.
    apply List.Forall_forall. intros m Hm. apply List.filter_In in Hm as [_ Hm].
    apply negb_true_iff, String.eqb_neq in Hm. exact Hm.
  - unfold watchedUserRating.
    destruct (List.find _ _) as [m|] eqn:Hfind; [|reflexivity].
    apply List.find_some in Hfind as [Hm Heq]. unfold handleDeleteWatched in Hm.
    apply List.filter_In in Hm as [_ Hm]. rewrite Heq in Hm. discriminate.
Qed.

Lemma delete_removes_one_entry_witness :
  let seen id := {| imdbID := id; title := "t"; year := "y"; poster := "p";
                    imdbRating := Num 7; userRating := Num 8; runtime := Num 90;
                    countRatingDecisions := 1 |} in
  length (handleDeleteWatched "b" [seen "a"; seen "b"; seen "c"]) + 1 = 3 ∧
  isWatched "b" (handleDeleteWatched "b" [seen "a"; seen "b"; seen "c"]) = false ∧
  watchedUserRating "b" (handleDeleteWatched "b" [seen "a"; seen "b"; seen "c"]) = None.
Proof.
  intros seen. apply (delete_removes_one_entry "b" [seen "a"; seen "b"; seen "c"]).
  - cbn. repeat constructor; rewrite ?list_elem_of_In; cbn; intuition discriminate.
  - reflexivity.
Defined.

(** X14. Deleting is idempotent and deletions commute: a second click on
    the same delete button changes nothing, and the order in which two
    movies are deleted does not matter. *)
Theorem deletions_commute (a b : string) (watched : list WatchedMovie) :
  handleDeleteWatched a (handleDeleteWatched a watched) = handleDeleteWatched a watched ∧
  handleDeleteWatched a (handleDeleteWatched b watched)
  = handleDeleteWatched b (handleDeleteWatched a watched).
Proof.
  split.
  - apply delete_absent. apply List.Forall_forall. intros m Hm.
    apply List.filter_In in Hm as [_ Hm]. apply negb_true_iff, String.eqb_neq in Hm.
    exact Hm.
  - induction watched as [|m watched IH]; [reflexivity|].
    cbn [handleDeleteWatched List.filter].
    destruct (String.eqb (imdbID m) a) eqn:Ha, (String.eqb (imdbID m) b) eqn:Hb;
      cbn [negb List.filter]; rewrite ?Ha, ?Hb; cbn [negb]; [| | |f_equal]; exact IH.
Qed.

(** X17. The runtime stored for a watched movie is read from the text
    before the first space of [Runtime]: [first_word] returns a prefix of
    its argument that contains no space and stops at the first space or at
    the end. *)
Theorem first_word_is_the_prefix_before_the_space (s : string) :
  ∃ rest, s = (first_word s ++ rest)%string ∧
          (rest = "" ∨ ∃ rest', rest = String " " rest') ∧
          ∀ c, In c (list_ascii_of_string (first_word s)) → c ≠ " "%char.
Proof.
  induction s as [|c s (rest & Heq & Hrest & Hfree)]; cbn [first_word].
  - exists "". split; [reflexivity|]. split; [left; reflexivity|]. intros c [].
  - destruct (Ascii.eqb_spec c " ") as [->|Hne].
    + exists (String " " s). split; [reflexivity|]. split; [right; eauto|]. intros c [].
    + exists rest. split; [rewrite string_app_cons, <- Heq; reflexivity|].
      split; [exact Hrest|].
      intros c' [<-|Hin]; [exact Hne | apply Hfree, Hin].
Qed.

Example first_word_of_runtime :
  first_word "117 min" = "117" ∧ first_word "N/A" = "N/A" ∧ first_word " min" = "".
Proof. repeat split. Qed.

End WatchedListMore.

(** * More on the statistics and the rating decisions *)

Section RatingsMore.
Import App MovieDetails.
Local Open Scope Q_scope.

Lemma count_succ (n : nat) :
  inject_Z (Z.of_nat (S n)) == inject_Z (Z.of_nat n) + 1.
Proof. rewrite Nat2Z.inj_succ. unfold Z.succ. rewrite inject_Z_plus. reflexivity. Qed.

Lemma count_positive (n : nat) : 0 < inject_Z (Z.of_nat (S n)).
Proof. unfold Qlt. cbn. lia. Qed.

Lemma total_bounds (lo hi : Q) (qs : list Q) :
  Forall (fun x => lo <= x ∧ x <= hi) qs →
  inject_Z (Z.of_nat (length qs)) * lo <= total qs ∧
  total qs <= inject_Z (Z.of_nat (length qs)) * hi.
Proof.
  induction 1 as [|x qs [Hlo Hhi] _ [Hlo' Hhi']].
  - cbn [length]. change (inject_Z (Z.of_nat 0)) with 0.
    change (total []) with 0. split; lra.
  - rewrite total_cons. cbn [length]. rewrite count_succ. split; lra.
Qed.

Lemma mean_bounds (lo hi : Q) (q : Q) (qs : list Q) :
  Forall (fun x => lo <= x ∧ x <= hi) (q :: qs) →
  lo <= mean (q :: qs) ∧ mean (q :: qs) <= hi.
Proof.
  intros Hall. destruct (total_bounds lo hi (q :: qs) Hall) as [Hlo Hhi].
  pose proof (count_positive (length qs)) as Hpos. unfold mean.
  cbn [length] in *. split.
  - apply Qle_shift_div_l; [exact Hpos|]. lra.
  - apply Qle_shift_div_r; [exact Hpos|]. lra.
Qed.

(** X15. The average of a non-empty array of fewer than 2^32 numbers
    between [lo] and [hi], themselves of magnitude at most 2^1023, is a
    finite number that leaves the interval from [lo] to [hi] by no more
    than the rounding error: 3 * 2^-53 times the sum of the magnitudes,
    plus 3 * 2^-1075 for each item.  (It can leave it: six 1s give
    0.9999999999999999.) *)
Theorem average_between_bounds (lo hi : Q) (q : Q) (qs : list Q) :
  (Z.of_nat (length (q :: qs)) < 2 ^ 32)%Z →
  - pow2 1023 <= lo → hi <= pow2 1023 →
  Forall (fun x => lo <= x ∧ x <= hi) (q :: qs) →
  ∃ r, average (map Num (q :: qs)) = Num r ∧
       lo - (3 * unit_roundoff * magnitude (q :: qs)
             + 3 * inject_Z (Z.of_nat (length (q :: qs))) * half_least) <= r ∧
       r <= hi + (3 * unit_roundoff * magnitude (q :: qs)
                  + 3 * inject_Z (Z.of_nat (length (q :: qs))) * half_least).
Proof.
  intros Hn Hlo Hhi Hall.
  destruct (average_error q qs Hn) as (r & Hr & Herr).
  { eapply List.Forall_impl; [|exact Hall]. cbn beta. intros x [Hx1 Hx2].
    apply Qabs_Qle_condition. split; lra. }
  destruct (mean_bounds lo hi q qs Hall) as [Hm1 Hm2].
  exists r. split; [exact Hr|]. apply Qabs_Qle_condition in Herr. split; lra.
Qed.

Lemma average_between_bounds_witness :
  ∃ r, average (map Num [8.5; 7.2; 9]) = Num r ∧
       0 - (3 * unit_roundoff * magnitude [8.5; 7.2; 9]
            + 3 * inject_Z (Z.of_nat 3) * half_least) <= r ∧
       r <= 10 + (3 * unit_roundoff * magnitude [8.5; 7.2; 9]
                  + 3 * inject_Z (Z.of_nat 3) * half_least).
Proof.
  apply (average_between_bounds 0 10 8.5 [7.2; 9]).
  - vm_compute. reflexivity.
  - vm_compute. discriminate.
  - vm_compute. discriminate.
  - repeat (apply List.Forall_cons; [split; unfold Qle; cbn; lia|]).
    apply List.Forall_nil.
Defined.

Local Close Scope Q_scope.

Lemma last_default (x : nat) (l : list nat) (d d' : nat) :
  List.last (x :: l) d = List.last (x :: l) d'.
Proof.
  revert x. induction l as [|y l IH]; intros x; [reflexivity|].
  change (List.last (y :: l) d = List.last (y :: l) d'). apply IH.
Qed.

Lemma rate_all_bounds (rs : list nat) : ∀ (u c : nat),
  Forall (fun r => 0 < r) rs →
  let (u', c') := rate_all rs (u, c) in
  c <= c' ∧ c' <= c + length rs ∧
  u' = List.last rs u ∧
  (u = 0 → rs ≠ [] → c + 1 <= c').
Proof.
  unfold rate_all. induction rs as [|r rs IH]; intros u c Hpos; cbn [fold_left].
  - split; [lia|]. split; [cbn; lia|]. split; [reflexivity|]. congruence.
  - inversion Hpos as [|? ? Hr Hrest]; subst.
    unfold rate at 2. destruct (Nat.eqb_spec r u) as [->|Hne].
    + specialize (IH u c Hrest).
      destruct (fold_left _ rs (u, c)) as [u' c'].
      destruct IH as (H1 & H2 & H3 & H4). cbn [length].
      split; [lia|]. split; [lia|]. split; [|lia].
      rewrite H3. destruct rs; reflexivity.
    + destruct (Nat.eqb_spec r 0) as [->|_]; [lia|].
      specialize (IH r (c + 1) Hrest).
      destruct (fold_left _ rs (r, c + 1)) as [u' c'].
      destruct IH as (H1 & H2 & H3 & H4). cbn [length].
      split; [lia|]. split; [lia|]. split; [|lia].
      rewrite H3. destruct rs as [|n rs]; [reflexivity|].
      change (List.last (n :: rs) r = List.last (n :: rs) u). apply last_default.
Qed.

(** X16. [countRatingDecisions] counts the changes of the rating, not the
    clicks: starting from no rating, after the stars with ratings [rs] were
    clicked the rating held is the last one clicked and the count is at
    least 1 and at most the number of clicks; clicking the star of the
    rating already held does not count. *)
Theorem decisions_count_rating_changes (rs : list nat) (r : nat) :
  Forall (fun r => 0 < r) (rs ++ [r]) →
  let (u, c) := rate_all (rs ++ [r]) (0, 0) in
  u = r ∧ 1 <= c ∧ c <= length (rs ++ [r]) ∧
  rate_all (rs ++ [r; r]) (0, 0) = (u, c).
Proof.
  intros Hpos. pose proof (rate_all_bounds (rs ++ [r]) 0 0 Hpos) as Hb.
  replace (rs ++ [r; r])%list with ((rs ++ [r]) ++ [r])%list
    by (rewrite <- List.app_assoc; reflexivity).
  unfold rate_all in *. rewrite (fold_left_app _ (rs ++ [r]) [r]).
  destruct (fold_left _ (rs ++ [r]) (0, 0)) as [u c].
  destruct Hb as (_ & Hle & Hlast & Hone). rewrite last_last in Hlast. subst u.
  split; [reflexivity|]. split.
  - specialize (Hone eq_refl). destruct rs; cbn in Hone; apply Hone; discriminate.
  - split; [lia|]. cbn [fold_left]. unfold rate. rewrite Nat.eqb_refl. reflexivity.
Qed.

Lemma decisions_count_rating_changes_witness :
  let (u, c) := rate_all ([7; 7; 9] ++ [8]) (0, 0) in
  u = 8 ∧ 1 <= c ∧ c <= length ([7; 7; 9] ++ [8]) ∧
  rate_all ([7; 7; 9] ++ [8; 8]) (0, 0) = (u, c).
Proof.
  apply (decisions_count_rating_changes [7; 7; 9] 8).
  repeat constructor.
Defined.

End RatingsMore.

(** * Properties of StarRating *)

Section StarRatingWidget.
Import StarRating.

Lemma isFull_shown st i : isFull st i = (i + 1 <=? shown st)%nat.
Proof. unfold isFull, shown. destruct (tempRating st =? 0)%nat; reflexivity. Qed.

Lemma full_prefix (d : nat) : ∀ n a : nat,
  map (fun i => (i + 1 <=? d)%nat) (seq a n)
  = (replicate (Nat.min (d - a) n) true ++ replicate (n - (d - a)) false)%list.
Proof.
  induction n as [|n IH]; intros a; cbn [seq map].
  - rewrite Nat.min_0_r. reflexivity.
  - rewrite IH. destruct (Nat.leb_spec (a + 1) d) as [Hle|Hgt].
    + replace (d - a) with (S (d - S a)) by lia. cbn [Nat.min replicate Nat.sub app].
      reflexivity.
    + replace (d - a) with 0 by lia. replace (d - S a) with 0 by lia.
      cbn [Nat.min replicate app]. rewrite !Nat.sub_0_r. reflexivity.
Qed.

(** X18. The stars are full up to the rating shown ([tempRating] while
    hovering, [rating] otherwise) and empty after it: of the [maxRating]
    stars the first [min shown maxRating] are full and no other is. *)
Theorem stars_fill_up_to_the_rating (p : Props) (st : State) :
  stars p st
  = (replicate (Nat.min (shown st) (maxRating p)) true ++
     replicate (maxRating p - shown st) false)%list
  ∧ length (stars p st) = maxRating p.
Proof.
  unfold stars. split; [|rewrite length_map, length_seq; reflexivity].
  rewrite (map_ext _ (fun i => (i + 1 <=? shown st)%nat)) by apply isFull_shown.
  rewrite full_prefix, Nat.sub_0_r. reflexivity.
Qed.

Lemma run_from (p : Props) (evs : list Event) : ∀ (st0 st : State) (calls : list nat),
  (rating st0 <= maxRating p)%nat →
  (tempRating st0 <= maxRating p)%nat →
  run p st0 evs = Some (st, calls) →
  (rating st <= maxRating p)%nat ∧ (tempRating st <= maxRating p)%nat ∧
  rating st = List.last (clicked evs) (rating st0) ∧
  calls = (if onSetMovieRating p then clicked evs else []) ∧
  Forall (fun r => (1 <= r)%nat ∧ (r <= maxRating p)%nat) (clicked evs).
Proof.
  induction evs as [|ev evs IH]; intros st0 st calls Hr Ht; cbn [run].
  - intros [= <- <-]. cbn. destruct (onSetMovieRating p); repeat split; auto.
  - destruct (step p st0 ev) as [[st1 calls1]|] eqn:Hstep; [|discriminate].
    destruct (run p st1 evs) as [[st2 calls2]|] eqn:Hrun; [|discriminate].
    intros [= <- <-].
    destruct ev as [i|i|i]; cbn [step] in Hstep;
      (destruct (Nat.ltb_spec i (maxRating p)) as [Hi|]; [|discriminate]);
      injection Hstep as <- <-;
      (eapply IH in Hrun as (H1 & H2 & H3 & H4 & H5); [| cbn; lia | cbn; lia]);
      cbn [rating tempRating] in *;
      unfold clicked in *; cbn [flat_map app]; fold (clicked evs) in *.
    + split; [exact H1|]. split; [exact H2|]. split.
      { rewrite H3. destruct (clicked evs) as [|n l]; [reflexivity|].
        change (List.last (n :: l) (i + 1) = List.last (n :: l) (rating st0)).
        apply last_default. }
      split.
      { rewrite H4. destruct (onSetMovieRating p); reflexivity. }
      constructor; [lia | exact H5].
    + repeat split; auto.
    + repeat split; auto.
Qed.

(** X19. In every run of the widget that starts with a [defaultRating] of
    at most [maxRating], the rating and the hovered rating stay at most
    [maxRating]; the rating is the one of the last star clicked (the
    default while none was); and the parent's [onSetMovieRating] has been
    called exactly with the ratings clicked, in order, each between 1 and
    [maxRating]: hovering never reports anything. *)
Theorem rating_stays_in_range_and_reported
    (p : Props) (evs : list Event) (st : State) (calls : list nat) :
  (defaultRating p <= maxRating p)%nat →
  run p (initial p) evs = Some (st, calls) →
  (rating st <= maxRating p)%nat ∧ (tempRating st <= maxRating p)%nat ∧
  rating st = List.last (clicked evs) (defaultRating p) ∧
  calls = (if onSetMovieRating p then clicked evs else []) ∧
  Forall (fun r => (1 <= r)%nat ∧ (r <= maxRating p)%nat) calls.
Proof.
  intros Hd Hrun.
  destruct (run_from p evs (initial p) st calls Hd ltac:(cbn; lia) Hrun)
    as (H1 & H2 & H3 & H4 & H5).
  split; [exact H1|]. split; [exact H2|]. split; [exact H3|]. split; [exact H4|].
  rewrite H4. destruct (onSetMovieRating p); [exact H5 | constructor].
Qed.

Lemma rating_stays_in_range_and_reported_witness :
  let p := {| maxRating := 10; messages := []; defaultRating := 3;
              onSetMovieRating := true |} in
  ∃ st calls,
    run p (initial p) [HoverIn 7; Click 7; HoverOut 7; HoverIn 2] = Some (st, calls) ∧
    rating st = 8 ∧ tempRating st = 3 ∧ calls = [8].
Proof.
  intros p. eexists _, _. split; [reflexivity|].
  destruct (rating_stays_in_range_and_reported p
              [HoverIn 7; Click 7; HoverOut 7; HoverIn 2] _ _
              ltac:(cbn; lia) eq_refl) as (_ & _ & H3 & H4 & _).
  split; [exact H3|]. split; [reflexivity | exact H4].
Defined.

(** X20. When one message per star is given and the widget starts with a
    [defaultRating] of at most [maxRating], the text is always the message
    of the rating shown, and that message exists whenever a rating is
    shown: the index [shown - 1] never leaves the array.  With no rating
    shown the index is -1 and nothing is displayed. *)
Theorem message_index_in_range
    (p : Props) (evs : list Event) (st : State) (calls : list nat) :
  (defaultRating p <= maxRating p)%nat →
  length (messages p) = maxRating p →
  run p (initial p) evs = Some (st, calls) →
  text p st = Message (message_at (messages p) (shown st)) ∧
  (shown st = 0 → message_at (messages p) (shown st) = None) ∧
  (shown st ≠ 0 →
   ∃ m, message_at (messages p) (shown st) = Some m ∧
        nth_error (messages p) (shown st - 1) = Some m).
Proof.
  intros Hd Hlen Hrun.
  destruct (run_from p evs (initial p) st calls Hd ltac:(cbn; lia) Hrun)
    as (H1 & H2 & _).
  split; [|split].
  - unfold text, shown. rewrite Hlen, Nat.eqb_refl. reflexivity.
  - intros ->. reflexivity.
  - intros Hshown. assert (Hle : (shown st <= maxRating p)%nat).
    { unfold shown. destruct (tempRating st =? 0)%nat; assumption. }
    destruct (shown st) as [|j] eqn:Hs; [congruence|]. cbn [message_at].
    destruct (nth_error (messages p) j) as [m|] eqn:Hm.
    + exists m. split; [reflexivity|]. rewrite Nat.sub_1_r. exact Hm.
    + apply nth_error_None in Hm. lia.
Qed.

Lemma message_index_in_range_witness :
  let p := {| maxRating := 3; messages := ["Bad"; "Okay"; "Good"];
              defaultRating := 3; onSetMovieRating := false |} in
  ∃ st calls, run p (initial p) [Click 1; HoverIn 0] = Some (st, calls) ∧
              text p st = Message (Some "Bad").
Proof.
  intros p. eexists _, _. split; [reflexivity|].
  destruct (message_index_in_range p [Click 1; HoverIn 0] _ _
              ltac:(cbn; lia) eq_refl eq_refl) as (Htext & _).
  exact Htext.
Defined.

End StarRatingWidget.

(** * Properties of useKey *)

Section UseKeyListeners.
Import UseKey.
Context {Action : Type} `{EqDecision Action}.

Lemma remove_own (base : list (nat * Callback Action)) id cb fr :
  NoDup (map fst (base ++ [(id, cb)])) →
  removeEventListener id {| listeners := base ++ [(id, cb)]; fresh := fr |}
  = {| listeners := base; fresh := fr |}.
Proof.
  intros Hnd. unfold removeEventListener. cbn [listeners fresh]. f_equal.
  rewrite List.filter_app. cbn [List.filter fst]. rewrite Nat.eqb_refl. cbn [negb].
  rewrite List.app_nil_r.
  rewrite List.map_app in Hnd. apply NoDup_app in Hnd as (_ & Hdisj & _).
  induction base as [|[i c] base IH]; [reflexivity|]. cbn [List.filter fst].
  destruct (Nat.eqb_spec i id) as [->|Hne]; cbn [negb].
  - exfalso. apply (Hdisj id); cbn; rewrite list_elem_of_In; left; reflexivity.
  - f_equal. apply IH. intros x Hx. apply Hdisj. cbn. right. exact Hx.
Qed.

Lemma cleanup_gives_base (base : list (nat * Callback Action)) h d :
  well_formed d → listeners d = (base ++ registered h)%list → consistent h →
  listeners (run_cleanup h d) = base ∧ fresh (run_cleanup h d) = fresh d.
Proof.
  intros [Hnd _] Hown Hcons. unfold run_cleanup, registered, consistent in *.
  destruct (cleanup h) as [id|] eqn:Hc.
  - destruct (deps h) as [[k a]|] eqn:Hd.
    + destruct d as [ls fr]. cbn [listeners fresh] in *. subst ls.
      rewrite remove_own by exact Hnd. split; reflexivity.
    + destruct Hcons as [_ Hcons]. destruct (Hcons (ex_intro _ id eq_refl)) as [? [=]].
  - split; [|reflexivity]. rewrite Hown.
    destruct (deps h) as [[k a]|]; apply List.app_nil_r.
Qed.

(** What one render keeps true. *)
Lemma useKey_keeps (base : list (nat * Callback Action)) key action h d :
  well_formed d →
  listeners d = (base ++ registered h)%list →
  consistent h →
  let (h', d') := useKey key action h d in
  well_formed d' ∧ listeners d' = (base ++ registered h')%list ∧ consistent h' ∧
  registered h' = [(default 0 (cleanup h'), {| cb_key := key; cb_action := action |})].
Proof.
  intros Hwf Hown Hcons. unfold useKey.
  destruct (decide (deps h = Some (key, action))) as [Hsame|Hchanged].
  - split; [assumption|]. split; [assumption|]. split; [assumption|].
    unfold registered, consistent in *. rewrite Hsame in *.
    destruct (cleanup h) as [id|]; [reflexivity|].
    destruct Hcons as [Hcons _]. destruct (Hcons (ex_intro _ _ eq_refl)) as [? [=]].
  - destruct (cleanup_gives_base base h d Hwf Hown Hcons) as [Hbase Hfresh].
    unfold addEventListener. rewrite Hbase, Hfresh. cbn [listeners fresh].
    destruct Hwf as [Hnd Hlt]. rewrite Hown in Hnd, Hlt.
    rewrite List.map_app in Hnd. apply NoDup_app in Hnd as (Hndb & _ & _).
    apply Forall_app in Hlt as [Hltb _].
    split; [split|]; unfold well_formed.
    + cbn [listeners]. rewrite List.map_app. cbn [map fst]. apply NoDup_app. split; [exact Hndb|].
      split; [|apply NoDup_singleton].
      intros i Hi Hi'. apply list_elem_of_singleton in Hi'. subst i.
      apply list_elem_of_fmap in Hi as ([j c] & Hj & Hin). cbn in Hj. subst j.
      rewrite Forall_forall in Hltb. specialize (Hltb _ Hin). cbn in Hltb. lia.
    + cbn [listeners fresh]. apply Forall_app. split.
      * eapply Forall_impl; [exact Hltb|]. intros [j c] Hj. cbn in *. lia.
      * constructor; [cbn; lia | constructor].
    + split; [reflexivity|]. split; [|reflexivity].
      unfold consistent. cbn. split; eauto.
Qed.

Lemma renders_keep (base : list (nat * Callback Action)) rs : ∀ h d,
  well_formed d →
  listeners d = (base ++ registered h)%list →
  consistent h →
  let (h', d') := renders rs h d in
  well_formed d' ∧ listeners d' = (base ++ registered h')%list ∧ consistent h' ∧
  match last rs with
  | Some (key, action) =>
      registered h' = [(default 0 (cleanup h'), {| cb_key := key; cb_action := action |})]
  | None => registered h' = registered h
  end.
Proof.
  induction rs as [|[key action] rs IH]; intros h d Hwf Hown Hcons; cbn [renders].
  - split; [exact Hwf|]. split; [exact Hown|]. split; [exact Hcons|]. reflexivity.
  - pose proof (useKey_keeps base key action h d Hwf Hown Hcons) as Hstep.
    destruct (useKey key action h d) as [h1 d1].
    destruct Hstep as (Hwf1 & Hown1 & Hcons1 & Hreg1).
    specialize (IH h1 d1 Hwf1 Hown1 Hcons1).
    destruct rs as [|r rs].
    { cbn [renders last]. auto. }
    rewrite last_cons_cons.
    destruct (renders (r :: rs) h1 d1) as [h2 d2].
    destruct IH as (Hwf2 & Hown2 & Hcons2 & Hreg2).
    split; [exact Hwf2|]. split; [exact Hown2|]. split; [exact Hcons2|].
    destruct (last (r :: rs)) as [[k a]|] eqn:Hlast; [exact Hreg2|].
    apply last_None in Hlast. discriminate.
Qed.

(** X21. However often a component using [useKey] re-renders, with
    whatever keys and actions, it has one listener on the document (none
    before its first render); the listeners of others are untouched and
    keep their order; and when it unmounts the document is left with
    exactly the listeners it had before. *)
Theorem useKey_leaves_no_listener
    (d : Document Action) (rs : list (string * Action)) :
  well_formed d →
  let (h', d') := renders rs unused d in
  listeners d' = (listeners d ++ registered h')%list ∧
  length (registered h') = match rs with [] => 0 | _ :: _ => 1 end ∧
  listeners (snd (unmount h' d')) = listeners d.
Proof.
  intros Hwf.
  pose proof (renders_keep (listeners d) rs unused d Hwf
                ltac:(symmetry; apply List.app_nil_r)
                ltac:(split; intros [? [=]])) as Hkeep.
  destruct (renders rs unused d) as [h' d'].
  destruct Hkeep as (Hwf' & Hown & Hcons & Hlast).
  split; [exact Hown|]. split.
  - destruct rs as [|r rs]; [cbn in Hlast; rewrite Hlast; reflexivity|].
    destruct (last (r :: rs)) as [[k a]|] eqn:Hl.
    + rewrite Hlast. reflexivity.
    + apply last_None in Hl. discriminate.
  - unfold unmount. cbn [snd].
    apply (cleanup_gives_base (listeners d) h' d' Hwf' Hown Hcons).
Qed.

(** X22. After any renders the last of which used [key] and [action], a
    keydown with code [code] calls the listeners that were there before
    and then runs [action] once when [code] and [key] are equal up to the
    case of their letters, and does not run it otherwise; the keys and
    actions of earlier renders are no longer listened for. *)
Theorem keydown_runs_the_latest_action
    (d : Document Action) (rs : list (string * Action))
    (key : string) (action : Action) (code : string) :
  well_formed d →
  let (h', d') := renders (rs ++ [(key, action)]) unused d in
  keydown code d' =
    (keydown code d ++
     if String.eqb (toLowerCase code) (toLowerCase key) then [action] else [])%list.
Proof.
  intros Hwf.
  pose proof (renders_keep (listeners d) (rs ++ [(key, action)]) unused d Hwf
                ltac:(symmetry; apply List.app_nil_r)
                ltac:(split; intros [? [=]])) as Hkeep.
  destruct (renders (rs ++ [(key, action)]) unused d) as [h' d'].
  destruct Hkeep as (_ & Hown & _ & Hlast).
  rewrite last_snoc in Hlast.
  unfold keydown. rewrite Hown, Hlast, flat_map_app.
  cbn [flat_map snd callback cb_key cb_action].
  rewrite List.app_nil_r. reflexivity.
Qed.

End UseKeyListeners.

Lemma useKey_leaves_no_listener_witness :
  let d := {| UseKey.listeners := [(0, UseKey.mkCallback "Enter" 1)];
              UseKey.fresh := 1 |} in
  let (h', d') := UseKey.renders [("Escape", 2); ("escape", 3)] UseKey.unused d in
  UseKey.listeners d' = (UseKey.listeners d ++ UseKey.registered h')%list ∧
  length (UseKey.registered h') = 1 ∧
  UseKey.listeners (snd (UseKey.unmount h' d')) = UseKey.listeners d.
Proof.
  intros d.
  apply (useKey_leaves_no_listener d [("Escape", 2); ("escape", 3)]).
  split; cbn; repeat constructor. rewrite list_elem_of_In. intros [].
Defined.

Lemma keydown_runs_the_latest_action_witness :
  let d := {| UseKey.listeners := [(0, UseKey.mkCallback "Enter" 1)];
              UseKey.fresh := 1 |} in
  let (h', d') := UseKey.renders ([("Enter", 2)] ++ [("Escape", 3)]) UseKey.unused d in
  UseKey.keydown "ESCAPE" d' = [3].
Proof.
  intros d.
  apply (keydown_runs_the_latest_action d [("Enter", 2)] "Escape" 3 "ESCAPE").
  split; cbn; repeat constructor. rewrite list_elem_of_In. intros [].
Defined.

(** * Properties of the details panel *)

Section DetailsPanel.
Import App MovieDetails.

Lemma select_fresh id w : fresh_lookups w → fresh_lookups (select id w).
Proof.
  intros Hf r. cbn [select inflight nextLookup].
  destruct (decide (r = nextLookup w)) as [->|Hne]; [lia|].
  rewrite lookup_insert_ne by congruence. intros Hr. specialize (Hf r Hr). lia.
Qed.

Lemma details_step_fresh w ev w' :
  fresh_lookups w → details_step w ev = Some w' → fresh_lookups w'.
Proof.
  intros Hf. destruct ev as [id|r o]; cbn [details_step].
  - destruct (String.eqb id (selectedId w)); intros [= <-];
      [exact Hf | apply select_fresh, Hf].
  - unfold settle. destruct (inflight w !! r); [|discriminate].
    intros [= <-] r'. cbn [inflight nextLookup].
    destruct (decide (r' = r)) as [->|Hne].
    + rewrite lookup_delete_eq. intros [? [=]].
    + rewrite lookup_delete_ne by congruence. apply Hf.
Qed.

Lemma details_step_keeps w ev w' r id :
  fresh_lookups w → inflight w !! r = Some id →
  (∀ o, ev ≠ Settled r o) →
  details_step w ev = Some w' → inflight w' !! r = Some id.
Proof.
  intros Hf Hr Hev. destruct ev as [id'|r' o]; cbn [details_step].
  - destruct (String.eqb id' (selectedId w)); intros [= <-]; [exact Hr|].
    cbn [select inflight]. rewrite lookup_insert_ne; [exact Hr|].
    specialize (Hf r ltac:(rewrite Hr; eauto)). lia.
  - unfold settle. destruct (inflight w !! r'); [|discriminate].
    intros [= <-]. cbn [inflight]. rewrite lookup_delete_ne; [exact Hr|].
    intros ->. exact (Hev o eq_refl).
Qed.

(** X23. The lookups of the details panel are never cancelled: a lookup
    in flight, for whichever id, stays in flight through any later
    selections and completions of other lookups, and when it completes it
    turns the spinner off and, unless it failed, replaces the movie shown
    (a failure keeps the movie), while the selection stays what it was. *)
Theorem details_lookups_are_never_cancelled
    (w w' : DetailsWorld) (evs : list DetailsEvent)
    (r : nat) (id : string) (o : DetailsOutcome) :
  fresh_lookups w →
  inflight w !! r = Some id →
  (∀ o', ¬ In (Settled r o') evs) →
  details_run w evs = Some w' →
  ∃ w'', settle r o w' = Some w'' ∧
    movie (state w'') = match o with
                        | DetailsResolves data => Some data
                        | DetailsRejects => movie (state w')
                        end ∧
    isLoading (state w'') = false ∧
    selectedId w'' = selectedId w'.
Proof.
  revert w. induction evs as [|ev evs IH]; intros w Hf Hr Hevs; cbn [details_run].
  - intros [= <-]. unfold settle. rewrite Hr. eexists. split; [reflexivity|].
    cbn. destruct o; auto.
  - destruct (details_step w ev) as [w1|] eqn:Hstep; [|discriminate].
    apply IH.
    + eapply details_step_fresh; eauto.
    + eapply details_step_keeps; eauto.
      intros o' ->. apply (Hevs o'). left. reflexivity.
    + intros o' Hin. apply (Hevs o'). right. exact Hin.
Qed.

Lemma title_effect_again t w : title_effect t (title_effect t w) = title_effect t w.
Proof.
  unfold title_effect, title_cleanup.
  destruct t as [[|c t]|]; [| reflexivity |];
    destruct (restores w) eqn:Hr; cbn [restores]; rewrite ?Hr; reflexivity.
Qed.

Lemma title_cleanup_changes titles : ∀ w,
  document_title (title_cleanup (title_changes titles w)) =
    if existsb has_title titles || restores w
    then "UsePopCorn" else document_title w.
Proof.
  unfold title_changes.
  induction titles as [|t titles IH]; intros w; cbn [fold_left existsb].
  - unfold title_cleanup. cbn [orb]. destruct (restores w); reflexivity.
  - rewrite IH. clear IH. unfold title_effect, title_cleanup.
    destruct t as [[|c t]|]; cbn [has_title orb];
      destruct (restores w) eqn:Hr; cbn [restores document_title];
      rewrite ?Hr; destruct (existsb has_title titles); reflexivity.
Qed.

(** X24. When the details panel unmounts after its title took any
    sequence of values, the tab title is the literal UsePopCorn as soon as
    one of these values was a non-empty text, whatever the tab title was
    before the panel mounted; it is the title from before only when no
    value was a non-empty text. *)
Theorem tab_title_after_unmount (titles : list (option string)) (w : TitleWorld) :
  restores w = false →
  document_title (title_cleanup (title_changes titles w)) =
    if existsb has_title titles then "UsePopCorn" else document_title w.
Proof.
  intros Hw. rewrite title_cleanup_changes, Hw, orb_false_r. reflexivity.
Qed.

(** X25. While the panel is mounted the tab title follows the last value:
    Movie | title for a non-empty title, and for an empty or undefined one
    what the cleanup of the earlier values left. *)
Theorem tab_title_while_mounted
    (titles : list (option string)) (title : option string) (w : TitleWorld) :
  restores w = false →
  document_title (title_changes (titles ++ [title]) w) =
    match title with
    | Some (String c t) => ("Movie | " ++ String c t)%string
    | _ => if existsb has_title titles then "UsePopCorn" else document_title w
    end.
Proof.
  intros Hw. unfold title_changes. rewrite fold_left_app. cbn [fold_left].
  fold (title_changes titles w). unfold title_effect.
  destruct title as [[|c t]|]; [| reflexivity |];
    rewrite title_cleanup_changes, Hw, orb_false_r; reflexivity.
Qed.

End DetailsPanel.

Lemma details_lookups_are_never_cancelled_witness :
  let blank := {| MovieDetails.state := {| MovieDetails.movie := None;
                                           MovieDetails.isLoading := false |};
                  MovieDetails.selectedId := "";
                  MovieDetails.inflight := ∅;
                  MovieDetails.nextLookup := 0 |} in
  let a := MovieDetails.mkDetails "Alien" "1979" "N/A" "117 min" "8.5" in
  let b := MovieDetails.mkDetails "Brazil" "1985" "N/A" "132 min" "7.9" in
  ∃ w' w'',
    MovieDetails.details_run (MovieDetails.select "tt0078748" blank)
      [MovieDetails.Selected "tt0088846";
       MovieDetails.Settled 1 (MovieDetails.DetailsResolves b)] = Some w' ∧
    MovieDetails.settle 0 (MovieDetails.DetailsResolves a) w' = Some w'' ∧
    MovieDetails.movie (MovieDetails.state w'') = Some a ∧
    MovieDetails.isLoading (MovieDetails.state w'') = false ∧
    MovieDetails.selectedId w'' = "tt0088846".
Proof.
  intros blank a b.
  destruct (MovieDetails.details_run (MovieDetails.select "tt0078748" blank)
      [MovieDetails.Selected "tt0088846";
       MovieDetails.Settled 1 (MovieDetails.DetailsResolves b)]) as [w'|] eqn:Hrun;
    [|vm_compute in Hrun; discriminate].
  destruct (details_lookups_are_never_cancelled
              (MovieDetails.select "tt0078748" blank) w'
              [MovieDetails.Selected "tt0088846";
               MovieDetails.Settled 1 (MovieDetails.DetailsResolves b)]
              0 "tt0078748" (MovieDetails.DetailsResolves a))
    as (w'' & Hsettle & Hmovie & Hloading & Hsel).
  - intros r. cbn. destruct r as [|r]; [lia|].
    rewrite lookup_insert_ne by lia. rewrite lookup_empty. intros [? [=]].
  - cbn. apply lookup_insert_eq.
  - intros o' [[=]|[[=]|[]]].
  - exact Hrun.
  - exists w', w''. split; [reflexivity|]. split; [exact Hsettle|].
    split; [exact Hmovie|]. split; [exact Hloading|].
    rewrite Hsel. vm_compute in Hrun. injection Hrun as <-. reflexivity.
Defined.

Lemma tab_title_after_unmount_witness :
  MovieDetails.document_title
    (MovieDetails.title_cleanup
       (MovieDetails.title_changes [None; Some "Alien"; Some ""]
          {| MovieDetails.document_title := "React App";
             MovieDetails.restores := false |}))
  = "UsePopCorn".
Proof.
  exact (tab_title_after_unmount [None; Some "Alien"; Some ""]
           {| MovieDetails.document_title := "React App";
              MovieDetails.restores := false |} eq_refl).
Defined.

Lemma tab_title_while_mounted_witness :
  MovieDetails.document_title
    (MovieDetails.title_changes ([None; Some "Alien"] ++ [Some "Brazil"])
       {| MovieDetails.document_title := "React App";
          MovieDetails.restores := false |})
  = "Movie | Brazil".
Proof.
  exact (tab_title_while_mounted [None; Some "Alien"] (Some "Brazil")
           {| MovieDetails.document_title := "React App";
              MovieDetails.restores := false |} eq_refl).
Defined.
